(** * SecuronisDownloadManager: the download engine, embedded and verified

    A shallow embedding of [core/download_manager.py] (the classes
    [Download] and [DownloadManager]), together with the parts of
    [core/settings_manager.py] and [core/privacy_manager.py] that the
    engine calls, followed by the properties of the engine.

    Conventions of the embedding.
    - Python [int] is [Z]; [str] is [string]; [dict] is [gmap]; the set of
      existing paths of the file system is a [gset string].
    - A [Download] object is created once and then shared by reference
      between the registry [self.downloads], the worker that runs it and
      the chunk threads.  The objects live in a heap ([heap], from
      references to records) and the registry [self.downloads] maps ids to
      references ([downloads]); deleting an id from the registry leaves the
      object reachable by the worker that still holds the reference.
    - Everything done under [downloads_lock] is one atomic function on the
      state.  Calls made by other threads while a transfer runs are part of
      the input of the executor (see [sevent] and [sched]).
    - One executor runs a download at a time.  [resume_download] puts the
      id back into the queue without asking whether a worker still reads
      the body of the paused download, so in the source a second worker can
      take the id and run a second executor on the same object before the
      first one has returned.  That overlap is not among the events of
      [sevent] and [sched]: the iterations of the workers are composed one
      after the other.  What is stated for every input of an executor is
      stated for one executor and the interface calls in its input.
    - Time ([start_time], [speed], [eta]) and the percentage [progress],
      which the source computes in floating point, are left out. *)

From Stdlib Require Import ZArith List Ascii String Lia.
From stdpp Require Import base tactics option list gmap sets strings pretty.

Local Open Scope string_scope.
Local Open Scope Z_scope.

(** ** Strings and paths (Python's [str], [os.path]) *)

Module Str.

Definition to_list (s : string) : list ascii := list_ascii_of_string s.
Definition of_list (l : list ascii) : string := string_of_list_ascii l.

(** [s.startswith(p)] *)
Definition startswith (p s : string) : bool := String.prefix p s.

(** [s[n:]] *)
Fixpoint drop (n : nat) (s : string) : string :=
  match n, s with
  | O, _ => s
  | S n', String _ s' => drop n' s'
  | S _, EmptyString => EmptyString
  end.

(** the longest prefix whose characters all satisfy [p] *)
Fixpoint take_while (p : ascii -> bool) (s : string) : string :=
  match s with
  | String c s' => if p c then String c (take_while p s') else EmptyString
  | EmptyString => EmptyString
  end.

Definition is_empty (s : string) : bool :=
  match s with EmptyString => true | _ => false end.

Definition eqb (a b : string) : bool := bool_decide (a = b).

(** [c] is one of the ASCII digits *)
Definition is_digit (c : ascii) : bool :=
  let n := nat_of_ascii c in (48 <=? n)%nat && (n <=? 57)%nat.

(** [c.isdigit()] for a character of a header value (a code point below
    256, as headers are decoded): the ASCII digits and the superscripts
    two, three and one *)
Definition is_digit_char (c : ascii) : bool :=
  let n := nat_of_ascii c in
  is_digit c || (n =? 178)%nat || (n =? 179)%nat || (n =? 185)%nat.

(** [s.isdigit()]: non-empty and every character is a digit character *)
Definition isdigit (s : string) : bool :=
  negb (is_empty s) && forallb is_digit_char (to_list s).

(** [int(s)] for a string [s] that passed [isdigit]: the decimal value when
    every character is an ASCII digit; [None] stands for the [ValueError]
    that [int] raises on a superscript digit *)
Definition int_of (s : string) : option Z :=
  if negb (is_empty s) && forallb is_digit (to_list s)
  then Some (fold_left (fun acc c => 10 * acc + (Z.of_nat (nat_of_ascii c) - 48))
                       (to_list s) 0)
  else None.

(** [str(e)] of that [ValueError] *)
Definition int_error (s : string) : string :=
  "invalid literal for int() with base 10: '" ++ s ++ "'".

(** [c.lower()] on ASCII, and [s.lower()] *)
Definition lower_char (c : ascii) : ascii :=
  let n := nat_of_ascii c in
  if (65 <=? n)%nat && (n <=? 90)%nat then ascii_of_nat (n + 32) else c.

Fixpoint lower (s : string) : string :=
  match s with
  | String c s' => String (lower_char c) (lower s')
  | EmptyString => EmptyString
  end.

(** [s.endswith(p)] *)
Definition endswith (p s : string) : bool :=
  let ls := String.length s in
  let lp := String.length p in
  (lp <=? ls)%nat && eqb (drop (ls - lp) s) p.

(** index of the last occurrence of [c] in [s] ([s.rfind(c)]), if any *)
Fixpoint rfind_from (c : ascii) (s : string) (i : nat) (last : option nat)
  : option nat :=
  match s with
  | EmptyString => last
  | String d s' =>
      rfind_from c s' (S i) (if bool_decide (d = c) then Some i else last)
  end.
Definition rfind (c : ascii) (s : string) : option nat := rfind_from c s 0 None.

(** [s[:n]] *)
Definition take (n : nat) (s : string) : string := String.substring 0 n s.

End Str.

Module Path.

Definition sep : ascii := "/"%char.
Definition extsep : ascii := "."%char.

(** [os.path.join(a, b)] (posixpath, two arguments) *)
Definition join (a b : string) : string :=
  if Str.startswith "/" b then b
  else if Str.is_empty a || Str.endswith "/" a then a ++ b
  else a ++ "/" ++ b.

(** [os.path.basename(p)]: what follows the last separator *)
Definition basename (p : string) : string :=
  match Str.rfind sep p with
  | Some i => Str.drop (S i) p
  | None => p
  end.

(** [head.rstrip('/')] *)
Fixpoint rstrip_sep_rev (r : list ascii) : list ascii :=
  match r with
  | c :: r' => if bool_decide (c = sep) then rstrip_sep_rev r' else r
  | [] => []
  end.
Definition rstrip_sep (s : string) : string :=
  Str.of_list (List.rev (rstrip_sep_rev (List.rev (Str.to_list s)))).

(** [os.path.dirname(p)]: up to the last separator, trailing separators
    removed unless the head consists of separators only *)
Definition dirname (p : string) : string :=
  match Str.rfind sep p with
  | Some i =>
      let head := Str.take (S i) p in
      let stripped := rstrip_sep head in
      if Str.is_empty stripped then head else stripped
  | None => ""
  end.

(** the loop of [genericpath._splitext] that skips leading dots: is there
    a character other than [extsep] in [s[i:dot]]? *)
Definition has_non_dot (s : string) (i dot : nat) : bool :=
  existsb (fun c => negb (bool_decide (c = extsep)))
          (Str.to_list (String.substring i (dot - i) s)).

(** [os.path.splitext(p)] *)
Definition splitext (p : string) : string * string :=
  match Str.rfind extsep p with
  | None => (p, "")
  | Some dot =>
      let filename_index :=
        match Str.rfind sep p with Some i => S i | None => O end in
      if (filename_index <=? dot)%nat && has_non_dot p filename_index dot
      then (Str.take dot p, Str.drop dot p)
      else (p, "")
  end.

End Path.

(** ** Data model *)

(** The values of [Download.status]. *)
Inductive Status := Waiting | Downloading | Paused | Completed | Failed | Canceled.

Global Instance Status_eq_dec : EqDecision Status.
Proof. solve_decision. Defined.

(** The values of [chunk['status']]. *)
Inductive ChunkStatus := CWaiting | CDownloading | CCompleted | CFailed.

Global Instance ChunkStatus_eq_dec : EqDecision ChunkStatus.
Proof. solve_decision. Defined.

(** The dictionary built for each chunk by [_download_in_chunks]. *)
Module Chunk.
Record t := mk {
  start : Z;
  end_ : Z;
  temp_file : string;
  downloaded : Z;
  status : ChunkStatus;
  error : option string
}.
Definition set_status (s : ChunkStatus) (c : t) : t :=
  mk (start c) (end_ c) (temp_file c) (downloaded c) s (error c).
Definition set_error (e : string) (c : t) : t :=
  mk (start c) (end_ c) (temp_file c) (downloaded c) (status c) (Some e).
Definition add_downloaded (n : Z) (c : t) : t :=
  mk (start c) (end_ c) (temp_file c) (downloaded c + n) (status c) (error c).
End Chunk.

(** class [Download] *)
Module Download.
Record t := mk {
  id : string;
  url : string;
  target_dir : string;
  filename : string;
  size : Z;
  downloaded : Z;
  status : Status;
  error : option string;
  privacy_mode : string;
  chunks : list Chunk.t
}.

(** [Download.__init__]; [url_path] is [unquote(urlparse(url).path)],
    computed by the standard library. *)
Definition _extract_filename (url_path : string) : string :=
  let b := Path.basename url_path in
  if Str.is_empty b then "download" else b.

Definition init (uid url target_dir : string) (filename : option string)
    (url_path : string) : t :=
  let name :=
    match filename with
    | Some f => if Str.is_empty f then _extract_filename url_path else f
    | None => _extract_filename url_path
    end in
  mk uid url target_dir name (-1) 0 Waiting None "Normal" [].

Definition get_target_path (d : t) : string :=
  Path.join (target_dir d) (filename d).

Definition set_url (u : string) (d : t) : t :=
  mk (id d) u (target_dir d) (filename d) (size d) (downloaded d)
     (status d) (error d) (privacy_mode d) (chunks d).
Definition set_filename (f : string) (d : t) : t :=
  mk (id d) (url d) (target_dir d) f (size d) (downloaded d)
     (status d) (error d) (privacy_mode d) (chunks d).
Definition set_size (n : Z) (d : t) : t :=
  mk (id d) (url d) (target_dir d) (filename d) n (downloaded d)
     (status d) (error d) (privacy_mode d) (chunks d).
Definition set_downloaded (n : Z) (d : t) : t :=
  mk (id d) (url d) (target_dir d) (filename d) (size d) n
     (status d) (error d) (privacy_mode d) (chunks d).
Definition set_status (s : Status) (d : t) : t :=
  mk (id d) (url d) (target_dir d) (filename d) (size d) (downloaded d)
     s (error d) (privacy_mode d) (chunks d).
Definition set_error (e : string) (d : t) : t :=
  mk (id d) (url d) (target_dir d) (filename d) (size d) (downloaded d)
     (status d) (Some e) (privacy_mode d) (chunks d).
Definition set_privacy_mode (p : string) (d : t) : t :=
  mk (id d) (url d) (target_dir d) (filename d) (size d) (downloaded d)
     (status d) (error d) p (chunks d).
Definition set_chunks (cs : list Chunk.t) (d : t) : t :=
  mk (id d) (url d) (target_dir d) (filename d) (size d) (downloaded d)
     (status d) (error d) (privacy_mode d) cs.
End Download.

(** The Qt signals of [DownloadManager], in the order they are emitted. *)
Inductive Signal :=
| download_added (i : string)
| download_started (i : string)
| download_completed (i : string)
| download_failed (i : string) (msg : string)
| download_paused (i : string)
| download_resumed (i : string)
| download_canceled (i : string)
| download_progress (i : string) (downloaded_bytes total_bytes : Z).

(** ** Settings store ([SettingsManager]) *)

(** The JSON values the settings file holds. *)
Inductive value := VNone | VBool (b : bool) | VInt (n : Z) | VStr (s : string).

Global Instance value_eq_dec : EqDecision value.
Proof. solve_decision. Defined.

(** Python's truth value of a settings value. *)
Definition truthy (v : value) : bool :=
  match v with
  | VNone => false
  | VBool b => b
  | VInt n => negb (n =? 0)%Z
  | VStr s => negb (Str.is_empty s)
  end.

(** [self.settings]: the sections in insertion order, each a dictionary. *)
Definition Settings := list (string * gmap string value).

(** [SettingsManager.get_setting]: the first section that has the key. *)
Fixpoint get_setting (s : Settings) (key : string) (default : value) : value :=
  match s with
  | [] => default
  | (_, section_values) :: rest =>
      match section_values !! key with
      | Some v => v
      | None => get_setting rest key default
      end
  end.

(** ** Privacy provider ([PrivacyManager]) *)

Record Privacy := {
  tor_enabled : bool;
  tor_address : string;
  tor_port : Z;
  proxy_type : string;
  proxy_address : string;
  proxy_port : Z;
  proxy_username : string;
  proxy_password : string
}.

(** [is_tor_enabled] *)
Definition is_tor_enabled (p : Privacy) : bool := tor_enabled p.

(** [get_proxy_settings]: the entries whose key starts with [proxy_] *)
Definition get_proxy_settings (p : Privacy) : Privacy := p.

(** ** The manager *)

(** What [DownloadManager.__init__] reads once from the settings, and the two
    collaborators it keeps. *)
Record Config := {
  max_downloads : Z;
  speed_limit : Z;
  chunk_enabled : bool;
  chunk_count : Z;
  chunk_min_size : Z;          (* bytes *)
  auto_extract : bool;
  verify_hash : bool;
  file_conflict : string;
  connection_timeout : Z;
  retry_count : Z;
  retry_delay : Z;
  settings_manager : Settings;
  privacy_manager : Privacy
}.

Definition int_setting (s : Settings) (key : string) (default : Z) : Z :=
  match get_setting s key (VInt default) with VInt n => n | _ => default end.
Definition bool_setting (s : Settings) (key : string) (default : bool) : bool :=
  truthy (get_setting s key (VBool default)).
Definition str_setting (s : Settings) (key : string) (default : string) : string :=
  match get_setting s key (VStr default) with VStr x => x | _ => default end.

(** [DownloadManager.__init__], for a settings file whose values have the
    types the settings tab writes (an integer, a boolean or a string). *)
Definition DownloadManager_init (s : Settings) (p : Privacy) : Config :=
  {| max_downloads := int_setting s "max_downloads" 3;
     speed_limit := int_setting s "speed_limit" 0;
     chunk_enabled := bool_setting s "chunk_enabled" true;
     chunk_count := int_setting s "chunk_count" 4;
     chunk_min_size := int_setting s "chunk_min_size" 10 * 1024 * 1024;
     auto_extract := bool_setting s "auto_extract" true;
     verify_hash := bool_setting s "verify_hash" true;
     file_conflict := str_setting s "file_conflict" "Auto rename";
     connection_timeout := int_setting s "connection_timeout" 30;
     retry_count := int_setting s "retry_count" 3;
     retry_delay := int_setting s "retry_delay" 5;
     settings_manager := s;
     privacy_manager := p |}.

(** A request handed to the [requests] library. *)
Record Request := {
  req_method : string;
  req_url : string;
  req_headers : gmap string value;
  req_proxies : gmap string string
}.

(** References to [Download] objects. *)
Definition loc := nat.

(** The mutable state: the manager's fields, the heap of [Download] objects,
    the file system and the log of what left the process. *)
Record State := mkState {
  heap : gmap loc Download.t;          (* the Download objects *)
  next_loc : loc;
  downloads : gmap string loc;         (* self.downloads *)
  download_queue : list string;        (* self.download_queue, head first *)
  active_workers : Z;
  signals : list Signal;               (* emitted signals, oldest first *)
  fs : gset string;                    (* paths that exist *)
  net : list Request                   (* requests issued, oldest first *)
}.

Definition initial_state : State := mkState ∅ 0%nat ∅ [] 0 [] ∅ [].

Definition with_heap (h : gmap loc Download.t) (σ : State) : State :=
  mkState h (next_loc σ) (downloads σ) (download_queue σ) (active_workers σ)
          (signals σ) (fs σ) (net σ).
Definition with_downloads (m : gmap string loc) (σ : State) : State :=
  mkState (heap σ) (next_loc σ) m (download_queue σ) (active_workers σ)
          (signals σ) (fs σ) (net σ).
Definition with_queue (q : list string) (σ : State) : State :=
  mkState (heap σ) (next_loc σ) (downloads σ) q (active_workers σ)
          (signals σ) (fs σ) (net σ).
Definition with_active (n : Z) (σ : State) : State :=
  mkState (heap σ) (next_loc σ) (downloads σ) (download_queue σ) n
          (signals σ) (fs σ) (net σ).
Definition with_fs (f : gset string) (σ : State) : State :=
  mkState (heap σ) (next_loc σ) (downloads σ) (download_queue σ)
          (active_workers σ) (signals σ) f (net σ).

(** [signal.emit(...)] *)
Definition emit (s : Signal) (σ : State) : State :=
  mkState (heap σ) (next_loc σ) (downloads σ) (download_queue σ)
          (active_workers σ) (signals σ ++ [s]) (fs σ) (net σ).

(** a call of [requests.head] or [requests.get] *)
Definition send (r : Request) (σ : State) : State :=
  mkState (heap σ) (next_loc σ) (downloads σ) (download_queue σ)
          (active_workers σ) (signals σ) (fs σ) (net σ ++ [r]).

(** an assignment to a field of the object at [l] *)
Definition update (l : loc) (f : Download.t -> Download.t) (σ : State) : State :=
  with_heap (alter f l (heap σ)) σ.

(** [self.download_queue.put(i)] *)
Definition queue_put (i : string) (σ : State) : State :=
  with_queue (download_queue σ ++ [i]) σ.

(** the object a reference points to *)
Definition deref (σ : State) (l : loc) : option Download.t := heap σ !! l.

(** [download.status], read through a reference *)
Definition status_at (σ : State) (l : loc) : option Status :=
  Download.status <$> deref σ l.

(** ** The registry operations of [DownloadManager] *)

(** [get_download]: [self.downloads.get(download_id)] *)
Definition get_download (i : string) (σ : State) : option Download.t :=
  l ← downloads σ !! i; deref σ l.

(** [get_all_downloads] *)
Definition get_all_downloads (σ : State) : list Download.t :=
  omap (fun kv => deref σ kv.2) (map_to_list (downloads σ)).

(** [add_download]; [uid] is the fresh [uuid4]. *)
Definition add_download (uid url target_dir : string) (filename : option string)
    (url_path : string) (privacy_mode : string) (σ : State) : string * State :=
  let download :=
    Download.set_status Waiting
      (Download.set_privacy_mode privacy_mode
         (Download.init uid url target_dir filename url_path)) in
  let l := next_loc σ in
  let σ := mkState (<[l := download]> (heap σ)) (S l) (<[uid := l]> (downloads σ))
                   (download_queue σ) (active_workers σ) (signals σ) (fs σ) (net σ) in
  let σ := queue_put uid σ in
  let σ := emit (download_added uid) σ in
  (uid, σ).

(** [pause_download] *)
Definition pause_download (i : string) (σ : State) : bool * State :=
  match downloads σ !! i with
  | Some l =>
      match status_at σ l with
      | Some Downloading =>
          (true, emit (download_paused i) (update l (Download.set_status Paused) σ))
      | _ => (false, σ)
      end
  | None => (false, σ)
  end.

(** [resume_download] *)
Definition resume_download (i : string) (σ : State) : bool * State :=
  match downloads σ !! i with
  | Some l =>
      match status_at σ l with
      | Some Paused =>
          (true, emit (download_resumed i)
                   (queue_put i (update l (Download.set_status Waiting) σ)))
      | _ => (false, σ)
      end
  | None => (false, σ)
  end.

(** [cancel_download] *)
Definition cancel_download (i : string) (σ : State) : bool * State :=
  match downloads σ !! i with
  | Some l =>
      match status_at σ l with
      | Some Downloading | Some Paused | Some Waiting =>
          (true, emit (download_canceled i) (update l (Download.set_status Canceled) σ))
      | _ => (false, σ)
      end
  | None => (false, σ)
  end.

(** [delete_download] *)
Definition delete_download (i : string) (σ : State) : bool * State :=
  match downloads σ !! i with
  | Some l =>
      (* Cancel if active *)
      let σ :=
        match status_at σ l with
        | Some Downloading | Some Waiting => (cancel_download i σ).2
        | _ => σ
        end in
      (* Delete from list *)
      (true, with_downloads (delete i (downloads σ)) σ)
  | None => (false, σ)
  end.

(** [stop_download] *)
Definition stop_download (i : string) (σ : State) : bool * State :=
  pause_download i σ.

(** [clear_completed] *)
Definition clear_completed (σ : State) : State :=
  let completed_ids : list string :=
    omap (fun kv : string * loc => match status_at σ kv.2 with
                    | Some Completed => Some kv.1
                    | _ => None
                    end)
         (map_to_list (downloads σ)) in
  with_downloads (foldr delete (downloads σ) completed_ids) σ.

(** ** What the environment contributes to a run *)

(** A call of the public interface made by another thread. *)
Inductive Op :=
| OpPause (i : string)
| OpResume (i : string)
| OpCancel (i : string)
| OpDelete (i : string).

Definition apply_op (op : Op) (σ : State) : State :=
  match op with
  | OpPause i => (pause_download i σ).2
  | OpResume i => (resume_download i σ).2
  | OpCancel i => (cancel_download i σ).2
  | OpDelete i => (delete_download i σ).2
  end.

(** The response to the HEAD request: the final URL and the headers, whose
    names [requests] compares case-insensitively (stored in lower case). *)
Record Response := {
  resp_url : string;
  resp_headers : gmap string string
}.

Inductive HeadResult :=
| HeadOk (r : Response)
| HeadRaises (e : string).

(** What happens while the body of a single-stream GET is read, in temporal
    order: [iter_content] yields a block of [n] bytes, or another thread
    calls the public interface.  A call placed after the last block happens
    between the last status check and the moment the worker commits the
    result.  The steps of another worker that has taken the same download
    after a [resume_download] are not among the events. *)
Inductive sevent :=
| SData (n : Z)
| SCall (op : Op).

(** One GET of the single-stream strategy: the request (or
    [raise_for_status]) raises, or the body is streamed and ends normally
    ([None]) or with an exception. *)
Inductive Attempt :=
| GetRaises (e : string)
| GetStream (body : list sevent) (fin : option string).

(** One GET of a chunk thread; the interleaving with other threads is given
    by the schedule. *)
Inductive CAttempt :=
| CGetRaises (e : string)
| CGetStream (body : list Z) (fin : option string).

(** A schedule of the chunk threads: thread [k] takes its next step, or
    another thread calls the public interface. *)
Inductive sched :=
| Run (k : nat)
| Call (op : Op).

(** Everything one run of [_download_file] receives from outside. *)
Record Env := {
  env_head : HeadResult;
  env_single : nat -> Attempt;            (* the n-th GET of _download_single *)
  env_chunk : nat -> nat -> CAttempt;     (* the n-th GET of chunk thread k *)
  env_sched : list sched
}.

(** What a method returns: [True], [False], [None] (a bare [return]), or an
    exception that leaves the method. *)
Inductive Ret := RTrue | RFalse | RNone | Raise (e : string).

(** ** The transfer executor *)

Definition dquote : ascii := ascii_of_nat 34.

(** [re.search(r'filename="?([^";]+)', s)]: the first position where
    [filename=], an optional quote and at least one character other than a
    quote or a semicolon follow; the result is group 1. *)
Fixpoint search_filename (s : string) : option string :=
  match s with
  | EmptyString => None
  | String _ s' =>
      if Str.startswith "filename=" s then
        let rest := Str.drop 9 s in
        let rest :=
          match rest with
          | String c r => if bool_decide (c = dquote) then r else rest
          | EmptyString => rest
          end in
        let g := Str.take_while
                   (fun c => negb (bool_decide (c = dquote) || bool_decide (c = ";"%char)))
                   rest in
        if Str.is_empty g then search_filename s' else Some g
      else search_filename s'
  end.

(** the name tried by the auto-rename loop: [f"{base} ({counter}){ext}"] *)
Definition renamed (base ext : string) (counter : Z) : string :=
  base ++ " (" ++ pretty counter ++ ")" ++ ext.

(** The loop [while os.path.exists(target_path): ...] of the auto-rename
    policy; it returns the adopted path and the final value of [counter].
    [fuel] bounds the number of iterations. *)
Fixpoint rename_loop (fuel : nat) (files : gset string) (base ext : string)
    (target_path : string) (counter : Z) : option (string * Z) :=
  if bool_decide (target_path ∈ files) then
    match fuel with
    | O => None
    | S fuel' =>
        rename_loop fuel' files base ext (renamed base ext counter) (counter + 1)
    end
  else Some (target_path, counter).

(** all the directories [os.makedirs(d)] creates or finds: [d] and its
    ancestors *)
Fixpoint ancestors_from (pre : string) (rest : string) : list string :=
  match rest with
  | EmptyString => [pre]
  | String c r =>
      let here := if bool_decide (c = Path.sep) && negb (Str.is_empty pre)
                  then [pre] else [] in
      here ++ ancestors_from (pre ++ String c EmptyString) r
  end.
Definition ancestors (d : string) : list string := ancestors_from "" d.

(** [os.makedirs(d, exist_ok=True)]; it raises on the empty path. *)
Definition makedirs (d : string) (σ : State) : option State :=
  if Str.is_empty d then None
  else Some (with_fs (fs σ ∪ list_to_set (ancestors d)) σ).

(** [os.path.exists], [open(p, 'wb')], [os.remove], [shutil.move] *)
Definition path_exists (p : string) (σ : State) : bool := bool_decide (p ∈ fs σ).
Definition create_file (p : string) (σ : State) : State := with_fs ({[p]} ∪ fs σ) σ.
Definition remove_file (p : string) (σ : State) : State := with_fs (fs σ ∖ {[p]}) σ.
Definition move_file (src dst : string) (σ : State) : State :=
  with_fs ({[dst]} ∪ (fs σ ∖ {[src]})) σ.

(** [_is_archive] *)
Definition _is_archive (file_path : string) : bool :=
  existsb (fun ext => Str.endswith ext (Str.lower file_path))
          [".zip"; ".rar"; ".tar"; ".gz"; ".7z"].

Inductive Conflict :=
| SkipDownload
| Proceed (target_path : string).

Section Engine.

Variable cfg : Config.

(** [_get_proxies] *)
Definition _get_proxies (privacy_mode : string) : gmap string string :=
  let pm := privacy_manager cfg in
  if Str.eqb privacy_mode "Tor" && is_tor_enabled pm then
    (* Configure for Tor *)
    let u := "socks5://" ++ tor_address pm ++ ":" ++ pretty (tor_port pm) in
    <["http" := u]> (<["https" := u]> ∅)
  else if Str.eqb privacy_mode "Proxy" then
    (* Configure custom proxy *)
    let proxy_settings := get_proxy_settings pm in
    if negb (Str.eqb (proxy_type proxy_settings) "None") then
      let auth :=
        if negb (Str.is_empty (proxy_username proxy_settings))
           && negb (Str.is_empty (proxy_password proxy_settings))
        then proxy_username proxy_settings ++ ":" ++ proxy_password proxy_settings ++ "@"
        else "" in
      let u := Str.lower (proxy_type proxy_settings) ++ "://" ++ auth
                 ++ proxy_address proxy_settings
                 ++ ":" ++ pretty (proxy_port proxy_settings) in
      <["http" := u]> (<["https" := u]> ∅)
    else ∅
  else ∅.

Definition browser_user_agent : string :=
  "Mozilla/5.0 (Windows NT 10.0; Win64; x64) AppleWebKit/537.36 (KHTML, like Gecko) Chrome/91.0.4472.124 Safari/537.36".

(** [_get_headers] *)
Definition _get_headers : gmap string value :=
  let s := settings_manager cfg in
  let headers : gmap string value := ∅ in
  (* User agent *)
  let user_agent_type := get_setting s "user_agent_type" (VStr "Browser default") in
  let headers :=
    if bool_decide (user_agent_type = VStr "Custom") then
      <["User-Agent" := get_setting s "custom_user_agent" (VStr "")]> headers
    else if bool_decide (user_agent_type = VStr "Browser default") then
      <["User-Agent" := VStr browser_user_agent]> headers
    else headers in
  (* Referer *)
  let send_referer := get_setting s "send_referer" (VBool true) in
  if negb (truthy send_referer) then <["Referer" := VStr ""]> headers
  else headers.

(** The check of the existing target file that opens both
    [_download_single] and [_download_in_chunks]. *)
Definition resolve_conflict (l : loc) (target_path : string) (σ : State)
  : option (Conflict * State) :=
  if path_exists target_path σ then
    if Str.eqb (file_conflict cfg) "Skip download" then Some (SkipDownload, σ)
    else if Str.eqb (file_conflict cfg) "Overwrite" then Some (Proceed target_path, σ)
    else if Str.eqb (file_conflict cfg) "Auto rename" then
      let '(base, ext) := Path.splitext target_path in
      match rename_loop (S (size (fs σ))) (fs σ) base ext target_path 1 with
      | Some (target_path, _) =>
          Some (Proceed target_path,
                update l (Download.set_filename (Path.basename target_path)) σ)
      | None => None
      end
    else Some (Proceed target_path, σ)
  else Some (Proceed target_path, σ).

(** [_post_process_download]: no download carries [expected_hash], and
    [_verify_file_hash] and [_extract_archive] are empty. *)
Definition _post_process_download (l : loc) (file_path : string) (σ : State) : State :=
  if auto_extract cfg && _is_archive file_path then σ else σ.

(** *** Single connection download strategy *)

(** The body of [for chunk in response.iter_content(...)]; the boolean
    tells that the loop was left through [return False] at the status
    check. *)
Fixpoint stream_loop (l : loc) (body : list sevent) (σ : State) : bool * State :=
  match body with
  | [] => (false, σ)
  | SCall op :: rest => stream_loop l rest (apply_op op σ)
  | SData n :: rest =>
      (* Check if download is paused or canceled *)
      match deref σ l with
      | Some download =>
          if bool_decide (Download.status download = Downloading) then
            if 0 <? n then
              let σ := update l (Download.set_downloaded (Download.downloaded download + n)) σ in
              (* Send progress signal *)
              let σ := emit (download_progress (Download.id download)
                               (Download.downloaded download + n)
                               (Download.size download)) σ in
              stream_loop l rest σ
            else stream_loop l rest σ
          else (true, σ)
      | None => (true, σ)
      end
  end.

(** The loop [while retries <= self.retry_count] of [_download_single];
    [n] counts the GET requests issued so far. *)
Fixpoint single_attempts (fuel : nat) (l : loc) (url : string)
    (proxies : gmap string string) (headers : gmap string value)
    (temp_path target_path : string) (script : nat -> Attempt)
    (n : nat) (retries : Z) (σ : State) : Ret * State :=
  match fuel with
  | O => (RFalse, σ)
  | S fuel' =>
      if retries <=? retry_count cfg then
        let σ := send {| req_method := "GET"; req_url := url;
                         req_headers := headers; req_proxies := proxies |} σ in
        let on_exception (e : string) (σ : State) : Ret * State :=
          let retries := retries + 1 in
          if retry_count cfg <? retries then
            let σ := update l (Download.set_error e) σ in
            (* Clean up temp file *)
            let σ := if path_exists temp_path σ then remove_file temp_path σ else σ in
            (RFalse, σ)
          else
            (* Wait before retry *)
            single_attempts fuel' l url proxies headers temp_path target_path
                            script (S n) retries σ in
        match script n with
        | GetRaises e => on_exception e σ
        | GetStream body fin =>
            let σ := create_file temp_path σ in
            let '(stopped, σ) := stream_loop l body σ in
            if stopped then (RFalse, σ)
            else
              match fin with
              | Some e => on_exception e σ
              | None =>
                  (* Download completed, move temp file to target *)
                  let σ := move_file temp_path target_path σ in
                  let σ := _post_process_download l target_path σ in
                  (RTrue, σ)
              end
        end
      else (RFalse, σ)
  end.

(** [_download_single] *)
Definition _download_single (l : loc) (proxies : gmap string string)
    (headers : gmap string value) (script : nat -> Attempt) (σ : State)
  : Ret * State :=
  match deref σ l with
  | None => (Raise "AttributeError", σ)
  | Some download =>
      let target_path := Download.get_target_path download in
      let temp_path := target_path ++ ".part" in
      match resolve_conflict l target_path σ with
      | None => (Raise "rename loop did not end", σ)
      | Some (SkipDownload, σ) => (RTrue, σ)
      | Some (Proceed target_path, σ) =>
          (* Create directory if it doesn't exist *)
          match makedirs (Path.dirname target_path) σ with
          | None => (Raise "FileNotFoundError", σ)
          | Some σ =>
              single_attempts (Z.to_nat (retry_count cfg + 1)) l
                (Download.url download) proxies headers temp_path target_path
                script 0%nat 0 σ
          end
      end
  end.

(** *** Chunked download strategy *)

(** The chunk list built by the loop [for i in range(self.chunk_count)]. *)
Definition prepare_chunks (target_path : string) (size : Z) : list Chunk.t :=
  let chunk_size := size `div` chunk_count cfg in
  map (fun i : nat =>
         let i := Z.of_nat i in
         let start := i * chunk_size in
         let end_ := if i <? chunk_count cfg - 1
                     then start + chunk_size - 1 else size - 1 in
         let temp_file := target_path ++ ".part" ++ pretty i in
         Chunk.mk start end_ temp_file 0 CWaiting None)
      (seq 0 (Z.to_nat (chunk_count cfg))).

(** Where a chunk thread stands in [_download_chunk]. *)
Inductive tphase :=
| TLoop                                          (* at the head of the retry loop *)
| TStream (body : list Z) (fin : option string)  (* inside the iter_content loop *)
| TDone.                                         (* returned, or died of the final raise *)

Record thread := mkThread {
  t_retries : Z;
  t_gets : nat;          (* GET requests issued so far *)
  t_phase : tphase
}.

(** an assignment to a field of [download.chunks[k]] *)
Definition update_chunk (l : loc) (k : nat) (f : Chunk.t -> Chunk.t) (σ : State) : State :=
  update l (fun d => Download.set_chunks (alter f k (Download.chunks d)) d) σ.

(** the [except] clause of [_download_chunk] *)
Definition chunk_exception (l : loc) (k : nat) (th : thread) (e : string) (σ : State)
  : thread * State :=
  let retries := t_retries th + 1 in
  if retry_count cfg <? retries then
    (mkThread retries (t_gets th) TDone,
     update_chunk l k (fun c => Chunk.set_error e (Chunk.set_status CFailed c)) σ)
  else (mkThread retries (t_gets th) TLoop, σ).

(** One step of the thread that runs [_download_chunk] for chunk [k]: up to
    the next GET, the next block of the body, or the end. *)
Definition chunk_step (l : loc) (k : nat) (proxies : gmap string string)
    (headers : gmap string value) (script : nat -> CAttempt)
    (th : thread) (σ : State) : thread * State :=
  match t_phase th, deref σ l with
  | TDone, _ | _, None => (mkThread (t_retries th) (t_gets th) TDone, σ)
  | TLoop, Some download =>
      if t_retries th <=? retry_count cfg then
        match Download.chunks download !! k with
        | None => (mkThread (t_retries th) (t_gets th) TDone, σ)
        | Some chunk =>
            (* Add range header for this chunk *)
            let range := "bytes=" ++ pretty (Chunk.start chunk) ++ "-"
                           ++ pretty (Chunk.end_ chunk) in
            let headers := <["Range" := VStr range]> headers in
            let σ := update_chunk l k (Chunk.set_status CDownloading) σ in
            let σ := send {| req_method := "GET"; req_url := Download.url download;
                             req_headers := headers; req_proxies := proxies |} σ in
            let n := t_gets th in
            let th := mkThread (t_retries th) (S n) TLoop in
            match script n with
            | CGetRaises e => chunk_exception l k th e σ
            | CGetStream body fin =>
                (mkThread (t_retries th) (t_gets th) (TStream body fin),
                 create_file (Chunk.temp_file chunk) σ)
            end
        end
      else (mkThread (t_retries th) (t_gets th) TDone, σ)
  | TStream (n :: rest) fin, Some download =>
      (* Check if download is paused or canceled *)
      if bool_decide (Download.status download = Downloading) then
        if 0 <? n then
          let σ := update_chunk l k (Chunk.add_downloaded n) σ in
          (* Update total downloaded amount *)
          let σ := update l (fun d =>
                      Download.set_downloaded
                        (foldr Z.add 0 (map Chunk.downloaded (Download.chunks d))) d) σ in
          let σ :=
            match deref σ l with
            | Some d => emit (download_progress (Download.id d) (Download.downloaded d)
                                                (Download.size d)) σ
            | None => σ
            end in
          (mkThread (t_retries th) (t_gets th) (TStream rest fin), σ)
        else (mkThread (t_retries th) (t_gets th) (TStream rest fin), σ)
      else (mkThread (t_retries th) (t_gets th) TDone, σ)
  | TStream [] None, Some _ =>
      (* Chunk successfully downloaded *)
      (mkThread (t_retries th) (t_gets th) TDone,
       update_chunk l k (Chunk.set_status CCompleted) σ)
  | TStream [] (Some e), Some _ => chunk_exception l k th e σ
  end.

(** the threads, by chunk index *)
Definition step_thread (l : loc) (proxies : gmap string string)
    (headers : gmap string value) (script : nat -> nat -> CAttempt)
    (k : nat) (ths : list thread) (σ : State) : list thread * State :=
  match ths !! k with
  | Some th =>
      let '(th, σ) := chunk_step l k proxies headers (script k) th σ in
      (<[k := th]> ths, σ)
  | None => (ths, σ)
  end.

(** The threads run as the schedule says. *)
Fixpoint run_sched (l : loc) (proxies : gmap string string)
    (headers : gmap string value) (script : nat -> nat -> CAttempt)
    (sc : list sched) (ths : list thread) (σ : State) : list thread * State :=
  match sc with
  | [] => (ths, σ)
  | Run k :: rest =>
      let '(ths, σ) := step_thread l proxies headers script k ths σ in
      run_sched l proxies headers script rest ths σ
  | Call op :: rest =>
      run_sched l proxies headers script rest ths (apply_op op σ)
  end.

(** the number of steps thread [k] can still take: every GET takes one
    step and every block of its body one more *)
Definition attempt_steps (a : CAttempt) : nat :=
  match a with
  | CGetRaises _ => 1
  | CGetStream body _ => 2 + length body
  end.

Definition thread_bound (script : nat -> CAttempt) : nat :=
  foldr Nat.add 1%nat
        (map (fun n => attempt_steps (script n)) (seq 0 (Z.to_nat (retry_count cfg + 1)))).

(** [thread.join()] for every thread: when the schedule is used up, each
    thread that has not returned runs to its end. *)
Fixpoint finish_thread (fuel : nat) (l : loc) (proxies : gmap string string)
    (headers : gmap string value) (script : nat -> nat -> CAttempt)
    (k : nat) (ths : list thread) (σ : State) : list thread * State :=
  match fuel with
  | O => (ths, σ)
  | S fuel' =>
      let '(ths, σ) := step_thread l proxies headers script k ths σ in
      finish_thread fuel' l proxies headers script k ths σ
  end.

Definition join_all (l : loc) (proxies : gmap string string)
    (headers : gmap string value) (script : nat -> nat -> CAttempt)
    (ths : list thread) (σ : State) : list thread * State :=
  foldl (fun acc k =>
           finish_thread (thread_bound (script k)) l proxies headers script k
                         acc.1 acc.2)
        (ths, σ) (seq 0 (length ths)).

(** the two loops [for chunk in chunks: if os.path.exists(...): os.remove(...)] *)
Definition remove_temp_files (chunks : list Chunk.t) (σ : State) : State :=
  foldl (fun σ chunk =>
           if path_exists (Chunk.temp_file chunk) σ
           then remove_file (Chunk.temp_file chunk) σ else σ)
        σ chunks.

(** [_download_in_chunks] *)
Definition _download_in_chunks (l : loc) (proxies : gmap string string)
    (headers : gmap string value) (script : nat -> nat -> CAttempt)
    (sc : list sched) (σ : State) : Ret * State :=
  match deref σ l with
  | None => (Raise "AttributeError", σ)
  | Some download =>
      let target_path := Download.get_target_path download in
      match resolve_conflict l target_path σ with
      | None => (Raise "rename loop did not end", σ)
      | Some (SkipDownload, σ) => (RTrue, σ)
      | Some (Proceed target_path, σ) =>
          (* Create directory if it doesn't exist *)
          match makedirs (Path.dirname target_path) σ with
          | None => (Raise "FileNotFoundError", σ)
          | Some σ =>
              if chunk_count cfg =? 0 then (Raise "ZeroDivisionError", σ)
              else
                (* Prepare chunks *)
                let chunks := prepare_chunks target_path (Download.size download) in
                let σ := update l (Download.set_chunks chunks) σ in
                (* Create threads for each chunk, wait for all of them *)
                let ths := map (fun _ => mkThread 0 0%nat TLoop) chunks in
                let '(ths, σ) := run_sched l proxies headers script sc ths σ in
                let '(_, σ) := join_all l proxies headers script ths σ in
                let chunks := from_option Download.chunks [] (deref σ l) in
                (* Check if all chunks completed successfully *)
                if forallb (fun c => bool_decide (Chunk.status c = CCompleted)) chunks then
                  (* Combine chunks *)
                  let σ := create_file target_path σ in
                  (* Clean up temp files *)
                  let σ := remove_temp_files chunks σ in
                  let σ := _post_process_download l target_path σ in
                  (RTrue, σ)
                else
                  (* Download failed *)
                  let σ := update l (Download.set_error "Some chunks failed to download") σ in
                  (* Clean up temp files *)
                  let σ := remove_temp_files chunks σ in
                  (RFalse, σ)
          end
      end
  end.

(** *** Probe and strategy selection *)

Inductive Strategy := Chunked | Single.

(** [supports_range]: the header is there and its value is exactly [bytes] *)
Definition supports_range (r : Response) : bool :=
  match resp_headers r !! "accept-ranges" with
  | Some v => Str.eqb v "bytes"
  | None => false
  end.

(** the condition of the [if] that ends [_download_file] *)
Definition choose_strategy (supports : bool) (size : Z) : Strategy :=
  if supports && chunk_enabled cfg && (chunk_min_size cfg <=? size)
  then Chunked else Single.

(** what [int(content_length)] does in [_download_file]: nothing when the
    header is missing, empty or not [isdigit]; a size to record; or the
    [ValueError] of [int] *)
Inductive SizeProbe := SizeAbsent | SizeKnown (n : Z) | SizeRaises (e : string).

Definition probe_size (r : Response) : SizeProbe :=
  match resp_headers r !! "content-length" with
  | Some content_length =>
      if negb (Str.is_empty content_length) && Str.isdigit content_length
      then match Str.int_of content_length with
           | Some n => SizeKnown n
           | None => SizeRaises (Str.int_error content_length)
           end
      else SizeAbsent
  | None => SizeAbsent
  end.

(** the assignments of [_download_file] between the HEAD request and the
    choice of the strategy; [inl e] when [int] raises, which is before
    anything is assigned *)
Definition record_probe (l : loc) (r : Response) (σ : State) : string + State :=
  (* File size *)
  match probe_size r with
  | SizeRaises e => inl e
  | size =>
      let σ :=
        match size with
        | SizeKnown n => update l (Download.set_size n) σ
        | _ => σ
        end in
      (* Get real filename (if provided by server) *)
      let σ :=
        match resp_headers r !! "content-disposition" with
        | Some content_disposition =>
            if Str.is_empty content_disposition then σ
            else match search_filename content_disposition with
                 | Some name => update l (Download.set_filename name) σ
                 | None => σ
                 end
        | None => σ
        end in
      (* Check download URL (if redirected) *)
      inr (update l (Download.set_url (resp_url r)) σ)
  end.

(** the [except] clause of [_download_file] *)
Definition file_exception (download_id : string) (e : string) (σ : State) : Ret * State :=
  match downloads σ !! download_id with
  | Some l' => (RFalse, update l' (Download.set_error e) σ)
  | None => (RFalse, σ)
  end.

(** [_download_file] *)
Definition _download_file (download_id : string) (env : Env) (σ : State) : Ret * State :=
  match downloads σ !! download_id with
  | None => (RNone, σ)
  | Some l =>
      match deref σ l with
      | None => file_exception download_id "KeyError" σ
      | Some download =>
          (* Proxy and Tor settings *)
          let proxies := _get_proxies (Download.privacy_mode download) in
          (* HTTP Headers *)
          let headers := _get_headers in
          (* HEAD request for file information *)
          let σ := send {| req_method := "HEAD"; req_url := Download.url download;
                           req_headers := headers; req_proxies := proxies |} σ in
          match env_head env with
          | HeadRaises e => file_exception download_id e σ
          | HeadOk head_response =>
              match record_probe l head_response σ with
              | inl e => file_exception download_id e σ
              | inr σ =>
                  let size := from_option Download.size (-1) (deref σ l) in
                  let '(r, σ) :=
                    match choose_strategy (supports_range head_response) size with
                    | Chunked =>
                        _download_in_chunks l proxies headers (env_chunk env) (env_sched env) σ
                    | Single =>
                        _download_single l proxies headers (env_single env) σ
                    end in
                  match r with
                  | Raise e => file_exception download_id e σ
                  | _ => (r, σ)
                  end
              end
          end
      end
  end.

(** ** The scheduler: one worker of [_download_worker] *)

(** The first half of an iteration: take the next id from the queue and,
    unless it is to be skipped, mark the download as [Downloading].  The
    result names the download the worker now runs. *)
Definition worker_take (σ : State) : option string * State :=
  match download_queue σ with
  | [] => (None, σ)                       (* [get()] blocks *)
  | download_id :: rest =>
      let σ := with_queue rest σ in
      match downloads σ !! download_id with
      | None => (None, σ)
      | Some l =>
          match status_at σ l with
          (* Skip if download is canceled or completed *)
          | Some Canceled | Some Completed | Some Failed | None => (None, σ)
          | Some _ =>
              (* Mark as downloading *)
              let σ := update l (Download.set_status Downloading) σ in
              let σ := with_active (active_workers σ + 1) σ in
              (Some download_id, emit (download_started download_id) σ)
          end
      end
  end.

(** The second half: what the worker does with the result of
    [_download_file]. *)
Definition worker_commit (download_id : string) (success : Ret) (σ : State) : State :=
  let σ :=
    match downloads σ !! download_id with
    | None => σ
    | Some l =>
        match success with
        | RTrue =>
            emit (download_completed download_id)
                 (update l (Download.set_status Completed) σ)
        | RFalse | RNone =>
            (* If paused/canceled, don't change status to failed *)
            match deref σ l with
            | Some d =>
                if bool_decide (Download.status d = Downloading) then
                  emit (download_failed download_id
                          (from_option (fun e => if Str.is_empty e then "Unknown error" else e)
                                       "Unknown error" (Download.error d)))
                       (update l (Download.set_status Failed) σ)
                else σ
            | None => σ
            end
        | Raise e =>
            emit (download_failed download_id e)
                 (update l (fun d => Download.set_error e (Download.set_status Failed d)) σ)
        end
    end in
  with_active (active_workers σ - 1) σ.

(** One iteration of the loop of [_download_worker]. *)
Definition worker_iteration (env : Env) (σ : State) : State :=
  match worker_take σ with
  | (None, σ) => σ
  | (Some download_id, σ) =>
      let '(success, σ) := _download_file download_id env σ in
      worker_commit download_id success σ
  end.

End Engine.

(** ** Observations used by the properties *)

(** the status of the download registered under [i], if any *)
Definition status_of (σ : State) (i : string) : option Status :=
  l ← downloads σ !! i; status_at σ l.

(** [i] is a key of [self.downloads] *)
Definition present (σ : State) (i : string) : Prop := is_Some (downloads σ !! i).

(** ** The state machine of the specification *)

(** The transitions the specification allows: Waiting to Downloading,
    Downloading to Paused, Paused to Waiting, cancel from Downloading,
    Paused or Waiting, and Downloading to Completed or Failed. *)
Definition legal_edge (a b : Status) : bool :=
  match a, b with
  | Waiting, Downloading
  | Downloading, Paused
  | Paused, Waiting
  | Downloading, Canceled
  | Paused, Canceled
  | Waiting, Canceled
  | Downloading, Completed
  | Downloading, Failed => true
  | _, _ => false
  end.

(** the terminal statuses *)
Definition terminal (s : Status) : bool :=
  match s with
  | Completed | Failed | Canceled => true
  | _ => false
  end.

(** a temporary part file: [<target>.part] or [<target>.part<i>] *)
Definition is_part_file (target p : string) : bool :=
  Str.startswith (target ++ ".part") p.

(** ** Concrete runs *)

Module Scenario.

(** the privacy settings [PrivacyManager.__init__] starts from *)
Definition privacy0 : Privacy :=
  {| tor_enabled := false; tor_address := "127.0.0.1"; tor_port := 9050;
     proxy_type := "None"; proxy_address := ""; proxy_port := 8080;
     proxy_username := ""; proxy_password := "" |}.

(** a manager built from an empty settings file: every default applies *)
Definition cfg0 : Config := DownloadManager_init [] privacy0.

(** a server that reports 100 bytes and no range support *)
Definition head100 : HeadResult :=
  HeadOk {| resp_url := "http://host/f.bin";
            resp_headers := {[ "content-length" := "100" ]} |}.

Definition single_env (body : list sevent) : Env :=
  {| env_head := head100;
     env_single := fun _ => GetStream body None;
     env_chunk := fun _ _ => CGetRaises "unused";
     env_sched := [] |}.

(** one download [u1] of [/dl/f.bin], submitted in mode [mode] *)
Definition submitted (mode : string) : State :=
  (add_download "u1" "http://host/f.bin" "/dl" (Some "f.bin") "/f.bin" mode
                initial_state).2.

(** The worker starts [u1]; 60 of the 100 bytes arrive; the user pauses; the
    next block meets the status check. *)
Definition paused_at_60 : State :=
  worker_iteration cfg0 (single_env [SData 60; SCall (OpPause "u1"); SData 40])
                   (submitted "Normal").

(** The user resumes; the worker takes [u1] again and the GET starts from
    the first byte; after 60 bytes the user pauses again. *)
Definition resumed : State := (resume_download "u1" paused_at_60).2.
Definition paused_again : State :=
  worker_iteration cfg0 (single_env [SData 60; SCall (OpPause "u1"); SData 40]) resumed.

(** The worker has marked [u1] as [Downloading] and all 100 bytes have
    arrived; the user cancels before the worker commits the result. *)
Definition taken : State := (worker_take (submitted "Normal")).2.
Definition run_then_cancel : Ret * State :=
  _download_file cfg0 "u1" (single_env [SData 100; SCall (OpCancel "u1")]) taken.
Definition committed : State :=
  worker_commit "u1" run_then_cancel.1 run_then_cancel.2.

(** 60 of the 100 bytes arrive; the user cancels; the next block meets the
    status check. *)
Definition canceled_at_60 : State :=
  worker_iteration cfg0 (single_env [SData 60; SCall (OpCancel "u1"); SData 40])
                   (submitted "Normal").

(** The same transfer submitted in mode Tor while Tor is not enabled, run to
    the end without interference. *)
Definition tor_run : State :=
  worker_iteration cfg0 (single_env [SData 100]) (submitted "Tor").

(** a manager whose settings say not to send the referer *)
Definition cfg_no_referer : Config :=
  DownloadManager_init [("connection", {[ "send_referer" := VBool false ]})] privacy0.


(** the target [/dl/f.bin] and its first renamed variant exist already *)
Definition with_conflicts : State :=
  with_fs {[ "/dl/f.bin"; "/dl/f (1).bin" ]} (submitted "Normal").

End Scenario.

(** ** Strategy selection *)


(** the HEAD request of the probe of the download [d] *)
Definition head_request (cfg : Config) (d : Download.t) : Request :=
  {| req_method := "HEAD"; req_url := Download.url d;
     req_headers := _get_headers cfg;
     req_proxies := _get_proxies cfg (Download.privacy_mode d) |}.



(** ** Requests issued by a step *)

(** From [σ] to [σ'] some requests were issued, each of them satisfying [P]. *)
Definition sends (P : Request -> Prop) (σ σ' : State) : Prop :=
  exists rs, net σ' = (net σ ++ rs)%list /\ Forall P rs.

(** a request that goes out over a direct connection *)
Definition direct (r : Request) : Prop := req_proxies r = ∅.

(** ** Byte counts *)

(** [download.downloaded], read through a reference *)
Definition downloaded_at (σ : State) (l : loc) : option Z :=
  Download.downloaded <$> deref σ l.


(** * More of the code: the settings store, the privacy provider *)

(** ** [SettingsManager]: the operations on the sections *)

(** [self.settings.get(section, {})]: the dictionary of a section *)
Fixpoint get_section (s : Settings) (section : string) : gmap string value :=
  match s with
  | [] => ∅
  | (name, section_values) :: rest =>
      if Str.eqb name section then section_values else get_section rest section
  end.

(** [section in self.settings] *)
Definition has_section (s : Settings) (section : string) : bool :=
  existsb (fun sec => Str.eqb sec.1 section) s.

(** [get_all_settings]: every section is merged into one dictionary, a later
    section overwriting the keys of the earlier ones *)
Definition get_all_settings (s : Settings) : gmap string value :=
  foldl (fun all_settings sec => sec.2 ∪ all_settings) ∅ s.

(** [self.settings[section][key] = value], for a section that exists *)
Fixpoint assign_in_section (s : Settings) (section key : string) (v : value) : Settings :=
  match s with
  | [] => []
  | (name, section_values) :: rest =>
      if Str.eqb name section then (name, <[key := v]> section_values) :: rest
      else (name, section_values) :: assign_in_section rest section key v
  end.

(** the loop of [set_setting] that searches every section for the key: the
    name of the section that was updated, and the new sections *)
Fixpoint assign_first (s : Settings) (key : string) (v : value)
  : option (string * Settings) :=
  match s with
  | [] => None
  | (name, section_values) :: rest =>
      if bool_decide (is_Some (section_values !! key))
      then Some (name, (name, <[key := v]> section_values) :: rest)
      else match assign_first rest key v with
           | Some (found, rest') => Some (found, (name, section_values) :: rest')
           | None => None
           end
  end.

(** [self.settings[section].update(values)], or a new section at the end *)
Fixpoint update_section (s : Settings) (section : string) (values : gmap string value)
  : Settings :=
  match s with
  | [] => [(section, values)]
  | (name, section_values) :: rest =>
      if Str.eqb name section then (name, values ∪ section_values) :: rest
      else (name, section_values) :: update_section rest section values
  end.

Module SettingsManager.

(** The object: its sections, the [settings_changed] signals it has emitted
    (oldest first) and [pending_save].  The timer that [schedule_save] starts
    runs in real time and is left out. *)
Record t := mk {
  settings : Settings;
  changed : list string;
  pending_save : bool
}.

(** [self.settings_changed.emit(section)] followed by [self.schedule_save()] *)
Definition emit_and_schedule (section : string) (s : Settings) (m : t) : t :=
  mk s (changed m ++ [section]) true.

(** [set_setting] *)
Definition set_setting (key : string) (v : value) (section : option string) (m : t)
  : bool * t :=
  match section with
  | Some section =>
      (* If section is specified, update directly *)
      if has_section (settings m) section
      then (true, emit_and_schedule section
                    (assign_in_section (settings m) section key v) m)
      else (false, m)
  | None =>
      (* Otherwise search in all sections *)
      match assign_first (settings m) key v with
      | Some (section_name, s) => (true, emit_and_schedule section_name s m)
      | None => (false, m)
      end
  end.

(** [save_section] *)
Definition save_section (section : string) (values : gmap string value) (m : t)
  : bool * t :=
  (true, emit_and_schedule section (update_section (settings m) section values) m).

(** the loop of [load_settings] over the sections of the loaded file *)
Definition load_settings (loaded : Settings) (m : t) : t :=
  mk (foldl (fun s sec => update_section s sec.1 sec.2) (settings m) loaded)
     (changed m) (pending_save m).

End SettingsManager.

(** ** [PrivacyManager]: switching Tor on and off *)

Module PrivacyManager.

(** What the host offers: the [stem] library, the [socks] library, and a
    Tor service that accepts connections on its SOCKS port
    ([is_tor_running]). *)
Record Host := {
  stem_available : bool;
  socks : bool;
  tor_running : bool
}.

(** The object: its settings, and whether [socket.create_connection] is
    currently replaced by the function that goes through Tor. *)
Record t := mk {
  settings : Privacy;
  patched : bool
}.

Definition set_tor_flag (b : bool) (p : Privacy) : Privacy :=
  {| tor_enabled := b; tor_address := tor_address p; tor_port := tor_port p;
     proxy_type := proxy_type p; proxy_address := proxy_address p;
     proxy_port := proxy_port p; proxy_username := proxy_username p;
     proxy_password := proxy_password p |}.

(** [enable_tor] *)
Definition enable_tor (h : Host) (pm : t) : bool * t :=
  (* Check if Stem library is available *)
  if negb (stem_available h) then (false, pm)
  (* Check if Tor service is running *)
  else if negb (tor_running h) then (false, pm)
  else
    (* Patch socket creation function *)
    let patched' := if socks h then true else patched pm in
    (true, mk (set_tor_flag true (settings pm)) patched').

(** [disable_tor] *)
Definition disable_tor (pm : t) : bool * t :=
  (* Restore original socket function *)
  (true, mk (set_tor_flag false (settings pm)) false).

(** [set_tor_enabled] *)
Definition set_tor_enabled (h : Host) (enabled : bool) (pm : t) : bool * t :=
  if negb (bool_decide (enabled = tor_enabled (settings pm))) then
    let pm := mk (set_tor_flag enabled (settings pm)) (patched pm) in
    if enabled then enable_tor h pm else disable_tor pm
  else (true, pm).

(** the Tor half of [apply_settings] *)
Definition apply_tor_settings (h : Host) (pm : t) : t :=
  if tor_enabled (settings pm) then (enable_tor h pm).2 else (disable_tor pm).2.

(** a call of one of the methods above *)
Inductive Call :=
| CallEnable
| CallDisable
| CallSet (enabled : bool)
| CallApply.

Definition call (h : Host) (c : Call) (pm : t) : t :=
  match c with
  | CallEnable => (enable_tor h pm).2
  | CallDisable => (disable_tor pm).2
  | CallSet enabled => (set_tor_enabled h enabled pm).2
  | CallApply => apply_tor_settings h pm
  end.

(** [PrivacyManager.__init__] without a stored privacy section: Tor is off
    and the socket function is the original one *)
Definition init : t :=
  mk {| tor_enabled := false; tor_address := "127.0.0.1"; tor_port := 9050;
        proxy_type := "None"; proxy_address := ""; proxy_port := 8080;
        proxy_username := ""; proxy_password := "" |} false.

End PrivacyManager.

(** ** Observations on the settings and on the privacy provider *)

(** some section has the key *)
Definition has_key (s : Settings) (key : string) : bool :=
  existsb (fun sec => bool_decide (is_Some (sec.2 !! key))) s.

(** the socket function is replaced only while the Tor flag is set *)
Definition patched_only_when_enabled (pm : PrivacyManager.t) : Prop :=
  PrivacyManager.patched pm = true -> tor_enabled (PrivacyManager.settings pm) = true.

(** the settings of [pm] apart from the Tor flag *)
Definition proxy_fields (p : Privacy) : string * Z * string * string * Z * string * string :=
  (tor_address p, tor_port p, proxy_type p, proxy_address p, proxy_port p,
   proxy_username p, proxy_password p).

(** ** Observations on the engine *)

(** [f] assigns none of the fields that are fixed when a download is
    submitted: [id], [target_dir] and [privacy_mode] *)
Definition field_update (f : Download.t -> Download.t) : Prop :=
  forall d, Download.id (f d) = Download.id d /\
            Download.target_dir (f d) = Download.target_dir d /\
            Download.privacy_mode (f d) = Download.privacy_mode d.

(** Every registered id refers to an object that was allocated, and the
    object carries the id it is registered under. *)
Definition registry_ok (σ : State) : Prop :=
  forall i l, downloads σ !! i = Some l ->
    (l < next_loc σ)%nat /\ exists d, deref σ l = Some d /\ Download.id d = i.

(** What a run of the executor may do to the manager: it allocates nothing,
    registers nothing, leaves the worker count alone, puts ids at the end of
    the queue only (through a resume), and keeps the fixed fields of every
    object. *)
Definition frame (σ σ' : State) : Prop :=
  next_loc σ' = next_loc σ /\
  active_workers σ' = active_workers σ /\
  (exists q, download_queue σ' = (download_queue σ ++ q)%list) /\
  (forall i l, downloads σ' !! i = Some l -> downloads σ !! i = Some l) /\
  (forall l d, deref σ l = Some d ->
     exists d', deref σ' l = Some d' /\
                Download.id d' = Download.id d /\
                Download.target_dir d' = Download.target_dir d /\
                Download.privacy_mode d' = Download.privacy_mode d).

(** What can happen to a manager: a download is submitted, the public
    interface is called, the completed downloads are cleared, or a worker
    runs one iteration of its loop against some environment. *)
Inductive Action :=
| ActAdd (uid url target_dir : string) (filename : option string)
         (url_path privacy_mode : string)
| ActCall (op : Op)
| ActClear
| ActWorker (env : Env).

Definition act (cfg : Config) (a : Action) (σ : State) : State :=
  match a with
  | ActAdd uid url target_dir filename url_path privacy_mode =>
      (add_download uid url target_dir filename url_path privacy_mode σ).2
  | ActCall op => apply_op op σ
  | ActClear => clear_completed σ
  | ActWorker env => worker_iteration cfg env σ
  end.

(** the state a manager is in after a sequence of actions *)
Definition run (cfg : Config) (actions : list Action) : State :=
  foldl (fun σ a => act cfg a σ) initial_state actions.

(** a GET request of the single-stream strategy *)
Definition get_request (url : string) (headers : gmap string value)
    (proxies : gmap string string) : Request :=
  {| req_method := "GET"; req_url := url; req_headers := headers; req_proxies := proxies |}.

(** the number of bytes of the range of a chunk, both ends included *)
Definition chunk_width (c : Chunk.t) : Z := Chunk.end_ c - Chunk.start c + 1.

(** [sum(c['downloaded'] for c in chunks)] *)
Definition chunks_downloaded (chunks : list Chunk.t) : Z :=
  foldr Z.add 0 (map Chunk.downloaded chunks).

(** the byte counter of the download at [l] is the sum of the counters of
    its chunks *)
Definition counter_is_sum (l : loc) (σ : State) : Prop :=
  forall d, deref σ l = Some d ->
            Download.downloaded d = chunks_downloaded (Download.chunks d).

(** ** A concrete chunked run *)

Module ChunkScenario.

(** two chunks, no minimum size, no retry *)
Definition cfg2 : Config :=
  DownloadManager_init
    [("download", {[ "chunk_count" := VInt 2; "chunk_min_size" := VInt 0 ]});
     ("connection", {[ "retry_count" := VInt 0 ]})]
    Scenario.privacy0.

(** a server that reports 10 bytes and accepts range requests *)
Definition head10 : Response :=
  {| resp_url := "http://host/f.bin";
     resp_headers := {[ "content-length" := "10"; "accept-ranges" := "bytes" ]} |}.

(** the download [u1], taken by a worker and probed *)
Definition probed : State :=
  match record_probe 0%nat head10 Scenario.taken with
  | inr σ => σ
  | inl _ => Scenario.taken
  end.

(** chunk 0 receives its 5 bytes; chunk 1 receives 3 bytes and then the
    connection breaks *)
Definition broken (k n : nat) : CAttempt :=
  match k with
  | O => CGetStream [5] None
  | _ => CGetStream [3] (Some "connection reset")
  end.

(** both chunks receive their 5 bytes *)
Definition complete (k n : nat) : CAttempt := CGetStream [5] None.

Definition interleaved : list sched := [Run 0%nat; Run 1%nat; Run 1%nat; Run 0%nat].

Definition env_of (script : nat -> nat -> CAttempt) : Env :=
  {| env_head := HeadOk head10;
     env_single := fun _ => GetRaises "unused";
     env_chunk := script;
     env_sched := interleaved |}.

End ChunkScenario.

(** ** Runs of the single-stream strategy without interface calls *)



(** the part files of the chunks of the download at [l] *)
Definition part_files_at (σ : State) (l : loc) : option (list string) :=
  (fun d => Chunk.temp_file <$> Download.chunks d) <$> deref σ l.
(** * Properties *)

(** ** Sanity checks of the string and path functions *)

Example join_ex : Path.join "/home/u/Downloads" "out.bin" = "/home/u/Downloads/out.bin".
Proof. reflexivity. Qed.
Example basename_ex : Path.basename "/home/u/out (1).bin" = "out (1).bin".
Proof. reflexivity. Qed.
Example dirname_ex : Path.dirname "/home/u/out.bin" = "/home/u".
Proof. reflexivity. Qed.
Example splitext_ex : Path.splitext "/home/u.d/out.tar.gz" = ("/home/u.d/out.tar", ".gz").
Proof. reflexivity. Qed.
Example splitext_hidden : Path.splitext "/home/u/.bashrc" = ("/home/u/.bashrc", "").
Proof. reflexivity. Qed.
Example splitext_nodot : Path.splitext "/home/u.d/out" = ("/home/u.d/out", "").
Proof. reflexivity. Qed.
Example isdigit_ex : Str.isdigit "1024" = true /\ Str.isdigit "" = false /\ Str.isdigit "-1" = false.
Proof. repeat split; reflexivity. Qed.
Example int_of_ex : Str.int_of "1024" = Some 1024 /\ Str.int_of "007" = Some 7.
Proof. split; reflexivity. Qed.
(** a superscript two passes [isdigit], and [int] raises on it *)
Example isdigit_superscript :
  let s := String (ascii_of_nat 178) EmptyString in
  Str.isdigit s = true /\ Str.isdigit ("1" ++ s) = true /\
  Str.int_of s = None /\ Str.int_of ("1" ++ s) = None.
Proof. repeat split; reflexivity. Qed.
Example search_filename_ex :
  search_filename ("attachment; filename=" ++ String dquote ("a b.zip" ++ String dquote "; x=1"))
  = Some "a b.zip".
Proof. reflexivity. Qed.
Example search_filename_none : search_filename "inline" = None.
Proof. reflexivity. Qed.
Example ancestors_ex : ancestors "/home/u/dl" = ["/home"; "/home/u"; "/home/u/dl"].
Proof. reflexivity. Qed.


(** ** The registry and its guarded mutators *)

Lemma status_of_Some σ i s :
  status_of σ i = Some s <->
  exists l d, downloads σ !! i = Some l /\ deref σ l = Some d /\ Download.status d = s.
Proof.
  unfold status_of, status_at. split.
  - destruct (downloads σ !! i) as [l|] eqn:Hl; simpl; [|discriminate].
    destruct (deref σ l) as [d|] eqn:Hd; simpl; [|discriminate].
    intros [= <-]. eauto.
  - intros (l & d & -> & Hd & <-). simpl. by rewrite Hd.
Qed.

Lemma pause_download_true i σ :
  (pause_download i σ).1 = true <-> status_of σ i = Some Downloading.
Proof.
  unfold pause_download, status_of.
  destruct (downloads σ !! i) as [l|]; simpl; [|split; discriminate].
  destruct (status_at σ l) as [[]|]; simpl; split; congruence.
Qed.

Lemma resume_download_true i σ :
  (resume_download i σ).1 = true <-> status_of σ i = Some Paused.
Proof.
  unfold resume_download, status_of.
  destruct (downloads σ !! i) as [l|]; simpl; [|split; discriminate].
  destruct (status_at σ l) as [[]|]; simpl; split; congruence.
Qed.

Lemma cancel_download_true i σ :
  (cancel_download i σ).1 = true <->
  (status_of σ i = Some Downloading \/ status_of σ i = Some Paused
   \/ status_of σ i = Some Waiting).
Proof.
  unfold cancel_download, status_of.
  destruct (downloads σ !! i) as [l|]; simpl; [|split; [discriminate|intros [|[|]]; discriminate]].
  destruct (status_at σ l) as [[]|]; simpl; split; intros; try discriminate; auto;
    repeat match goal with H : _ \/ _ |- _ => destruct H end; discriminate.
Qed.

Lemma delete_download_true i σ :
  (delete_download i σ).1 = true <-> present σ i.
Proof.
  unfold delete_download, present.
  destruct (downloads σ !! i) as [l|]; simpl; split; intros; eauto.
  - discriminate.
  - by destruct H.
Qed.

Lemma pause_download_false i σ :
  (pause_download i σ).1 = false -> (pause_download i σ).2 = σ.
Proof.
  unfold pause_download.
  destruct (downloads σ !! i) as [l|]; simpl; [|done].
  destruct (status_at σ l) as [[]|]; simpl; congruence.
Qed.

Lemma resume_download_false i σ :
  (resume_download i σ).1 = false -> (resume_download i σ).2 = σ.
Proof.
  unfold resume_download.
  destruct (downloads σ !! i) as [l|]; simpl; [|done].
  destruct (status_at σ l) as [[]|]; simpl; congruence.
Qed.

Lemma cancel_download_false i σ :
  (cancel_download i σ).1 = false -> (cancel_download i σ).2 = σ.
Proof.
  unfold cancel_download.
  destruct (downloads σ !! i) as [l|]; simpl; [|done].
  destruct (status_at σ l) as [[]|]; simpl; congruence.
Qed.

Lemma delete_download_false i σ :
  (delete_download i σ).1 = false -> (delete_download i σ).2 = σ.
Proof.
  unfold delete_download.
  destruct (downloads σ !! i) as [l|]; simpl; [discriminate|done].
Qed.

(** C10. [pause_download] returns [True] exactly for a registered download
    that is [Downloading], [resume_download] exactly for one that is
    [Paused], [cancel_download] exactly for one that is [Downloading],
    [Paused] or [Waiting], and [delete_download] exactly for a registered
    id; an operation that returns [False] leaves the whole state (so the
    registry and every status) as it was. *)
Theorem control_operations_results (i : string) (σ : State) :
  ((pause_download i σ).1 = true <-> status_of σ i = Some Downloading) /\
  ((resume_download i σ).1 = true <-> status_of σ i = Some Paused) /\
  ((cancel_download i σ).1 = true <->
     (status_of σ i = Some Downloading \/ status_of σ i = Some Paused
      \/ status_of σ i = Some Waiting)) /\
  ((delete_download i σ).1 = true <-> present σ i) /\
  ((pause_download i σ).1 = false -> (pause_download i σ).2 = σ) /\
  ((resume_download i σ).1 = false -> (resume_download i σ).2 = σ) /\
  ((cancel_download i σ).1 = false -> (cancel_download i σ).2 = σ) /\
  ((delete_download i σ).1 = false -> (delete_download i σ).2 = σ).
Proof.
  repeat split;
    first [ apply pause_download_true | apply resume_download_true
          | apply cancel_download_true | apply delete_download_true
          | apply pause_download_false | apply resume_download_false
          | apply cancel_download_false | apply delete_download_false ].
Qed.

(** a registered id at work: the control operations at a concrete state *)
Lemma control_operations_results_witness :
  (pause_download "u1" (Scenario.submitted "Normal")).1 = false /\
  (pause_download "u1" (Scenario.submitted "Normal")).2 = Scenario.submitted "Normal".
Proof.
  split; [reflexivity|].
  apply (proj1 (proj2 (proj2 (proj2 (proj2
           (control_operations_results "u1" (Scenario.submitted "Normal"))))))).
  reflexivity.
Defined.

(** ** Deleting a download *)

Lemma deref_update σ l f : deref (update l f σ) l = f <$> deref σ l.
Proof. unfold deref, update; simpl. by rewrite lookup_alter_eq. Qed.


(** Against C7 as stated: deleting a paused download leaves the object
    [Paused]; no cancel takes place and no [download_canceled] signal is
    emitted. *)
Lemma delete_paused_not_canceled :
  status_of Scenario.paused_at_60 "u1" = Some Paused /\
  downloads Scenario.paused_at_60 !! "u1" = Some 0%nat /\
  status_at (delete_download "u1" Scenario.paused_at_60).2 0%nat = Some Paused /\
  signals (delete_download "u1" Scenario.paused_at_60).2 = signals Scenario.paused_at_60.
Proof. vm_compute. repeat split; reflexivity. Qed.

(** C7, in the form the code satisfies. For a registered id, [delete_download] returns [True],
    cancels the download when its status is [Downloading] or [Waiting] (a
    status of [Paused], like the terminal ones, is left as it is), and
    removes the entry, so that [get_download] finds nothing afterwards. *)
Theorem delete_download_removes (i : string) (σ : State) (l : loc) (d : Download.t) :
  downloads σ !! i = Some l ->
  deref σ l = Some d ->
  (delete_download i σ).1 = true /\
  downloads (delete_download i σ).2 = delete i (downloads σ) /\
  get_download i (delete_download i σ).2 = None /\
  status_at (delete_download i σ).2 l =
    Some (match Download.status d with
          | Downloading | Waiting => Canceled
          | s => s
          end).
Proof.
  intros Hl Hd.
  assert (Hs : status_at σ l = Some (Download.status d))
    by (unfold status_at; by rewrite Hd).
  unfold delete_download, get_download. rewrite Hl, Hs.
  unfold cancel_download. rewrite Hl, Hs.
  destruct (Download.status d) eqn:Hst; simpl;
    rewrite ?lookup_delete_eq; simpl; repeat split; try done;
    unfold status_at, deref in *; simpl;
    rewrite ?lookup_alter_eq, Hd; simpl; congruence.
Qed.

Lemma delete_download_removes_witness :
  get_download "u1" (delete_download "u1" (Scenario.submitted "Normal")).2 = None /\
  status_at (delete_download "u1" (Scenario.submitted "Normal")).2 0%nat = Some Canceled.
Proof.
  pose proof (delete_download_removes "u1" (Scenario.submitted "Normal") 0%nat
                (Download.init "u1" "http://host/f.bin" "/dl" (Some "f.bin") "/f.bin")
                eq_refl eq_refl) as (_ & _ & Hget & Hst).
  split; [exact Hget | exact Hst].
Defined.

(** ** The byte counter across pause and resume *)

Lemma downloaded_at_update_status σ l l' s :
  downloaded_at (update l' (Download.set_status s) σ) l = downloaded_at σ l.
Proof.
  unfold downloaded_at, deref, update. simpl. destruct (decide (l = l')) as [->|Hne].
  - rewrite lookup_alter_eq. by destruct (heap σ !! l').
  - by rewrite lookup_alter_ne.
Qed.

(** pausing, resuming, canceling and deleting leave every byte counter alone *)
Lemma downloaded_at_apply_op op σ l :
  downloaded_at (apply_op op σ) l = downloaded_at σ l.
Proof.
  destruct op as [i|i|i|i]; simpl;
    unfold pause_download, resume_download, delete_download, cancel_download;
    repeat case_match; simpl; try reflexivity;
    repeat first
      [ progress change (downloaded_at (emit ?s ?x) l) with (downloaded_at x l)
      | progress change (downloaded_at (with_downloads ?m ?x) l) with (downloaded_at x l)
      | progress change (downloaded_at (queue_put ?q ?x) l) with (downloaded_at x l)
      | rewrite downloaded_at_update_status ];
    reflexivity.
Qed.

(** C1. A transfer of 100 bytes is paused after 60 bytes and resumed; the
    single-stream GET starts again at the first byte while [downloaded]
    keeps its old value, so after the next 60 bytes the counter is 120,
    above the probed size, and the transfer is not in a terminal status. *)
Theorem downloaded_exceeds_size_after_resume :
  (Download.downloaded <$> get_download "u1" Scenario.paused_at_60) = Some 60 /\
  (Download.size <$> get_download "u1" Scenario.paused_again) = Some 100 /\
  (Download.downloaded <$> get_download "u1" Scenario.paused_again) = Some 120 /\
  status_of Scenario.paused_again "u1" = Some Paused /\
  download_progress "u1" 120 100 ∈ signals Scenario.paused_again.
Proof.
  repeat split; try (vm_compute; reflexivity).
  apply list_elem_of_In. vm_compute. tauto.
Qed.

(** ** Status transitions made by the worker *)

Lemma status_at_update_status σ l l' s :
  status_at (update l' (Download.set_status s) σ) l =
    if decide (l = l') then (fun _ => s) <$> status_at σ l else status_at σ l.
Proof.
  unfold status_at, deref, update. simpl. destruct (decide (l = l')) as [->|Hne].
  - rewrite lookup_alter_eq. by destruct (heap σ !! l').
  - by rewrite lookup_alter_ne.
Qed.

(** The calls of the public interface change a status only along an edge of
    the state machine. *)
Lemma control_operations_follow_edges (op : Op) (σ : State) (l : loc) (a b : Status) :
  status_at σ l = Some a ->
  status_at (apply_op op σ) l = Some b ->
  a = b \/ legal_edge a b = true.
Proof.
  intros Ha Hb. destruct op as [i|i|i|i]; simpl in Hb;
    unfold pause_download, resume_download, delete_download, cancel_download in Hb;
    destruct (downloads σ !! i) as [l'|] eqn:Hl'; simpl in Hb;
    try (left; congruence);
    rewrite ?Hl' in Hb;
    destruct (status_at σ l') as [[]|] eqn:Hs'; simpl in Hb;
    try (left; congruence);
    change (status_at (emit ?s ?x) l) with (status_at x l) in Hb;
    rewrite ?status_at_update_status in Hb;
    try (change (status_at (with_downloads ?m ?x) l) with (status_at x l) in Hb;
         change (status_at (emit ?s ?x) l) with (status_at x l) in Hb;
         rewrite ?status_at_update_status in Hb);
    try (change (status_at (queue_put ?q ?x) l) with (status_at x l) in Hb;
         rewrite ?status_at_update_status in Hb);
    destruct (decide (l = l')) as [->|Hne];
    rewrite ?Ha, ?Hs' in Hb; simpl in Hb; simplify_eq; auto.
Qed.

(** A download taken from the queue while [Waiting] becomes [Downloading]. *)
Lemma worker_take_waiting (i : string) (q : list string) (σ : State) (l : loc) :
  download_queue σ = i :: q ->
  downloads σ !! i = Some l ->
  status_at σ l = Some Waiting ->
  (worker_take σ).1 = Some i /\
  status_at (worker_take σ).2 l = Some Downloading /\
  legal_edge Waiting Downloading = true.
Proof.
  intros Hq Hl Hs. unfold worker_take. rewrite Hq. simpl. rewrite Hl.
  change (status_at (with_queue q σ) l) with (status_at σ l). rewrite Hs. simpl.
  split; [done|]. split; [|done].
  change (status_at σ l = Some Waiting) in Hs.
  unfold status_at, deref in *. simpl. rewrite lookup_alter_eq.
  destruct (heap σ !! l); simpl in *; congruence.
Qed.

(** When the executor reports a failure, the worker changes the status only
    from [Downloading], to [Failed]. *)
Lemma worker_commit_failure_follows_edges (i : string) (σ : State) (l : loc) (a b : Status) :
  status_at σ l = Some a ->
  status_at (worker_commit i RFalse σ) l = Some b ->
  a = b \/ (a = Downloading /\ b = Failed).
Proof.
  intros Ha Hb. unfold worker_commit in Hb.
  destruct (downloads σ !! i) as [l'|];
    [|left; change (status_at σ l = Some b) in Hb; congruence].
  destruct (deref σ l') as [d|] eqn:Hd; [|left; change (status_at σ l = Some b) in Hb; congruence].
  destruct (bool_decide_reflect (Download.status d = Downloading)) as [Hst|Hst];
    [|left; change (status_at σ l = Some b) in Hb; congruence].
  change (status_at (update l' (Download.set_status Failed) σ) l = Some b) in Hb.
  rewrite status_at_update_status in Hb.
  destruct (decide (l = l')) as [->|Hne]; [|left; congruence].
  right. unfold status_at in Ha, Hb. rewrite Hd in Ha, Hb. simpl in Ha, Hb.
  split; congruence.
Qed.

(** C2. The executor returns [True] although the download was canceled
    after its last status check; the worker then overwrites [Canceled], a
    terminal status, with [Completed]. *)
Theorem worker_commit_overwrites_canceled :
  Scenario.run_then_cancel.1 = RTrue /\
  status_of Scenario.run_then_cancel.2 "u1" = Some Canceled /\
  status_of Scenario.committed "u1" = Some Completed /\
  terminal Canceled = true /\
  legal_edge Canceled Completed = false.
Proof. vm_compute. repeat split; reflexivity. Qed.

(** ** Part files of a canceled transfer *)

Lemma remove_temp_files_cons c chunks σ :
  remove_temp_files (c :: chunks) σ =
    remove_temp_files chunks
      (if path_exists (Chunk.temp_file c) σ then remove_file (Chunk.temp_file c) σ else σ).
Proof. reflexivity. Qed.

Lemma remove_temp_files_heap chunks σ : heap (remove_temp_files chunks σ) = heap σ.
Proof.
  revert σ. induction chunks as [|c chunks IH]; intros σ; [done|].
  rewrite remove_temp_files_cons, IH. by case_match.
Qed.

Lemma remove_temp_files_subset chunks σ : fs (remove_temp_files chunks σ) ⊆ fs σ.
Proof.
  revert σ. induction chunks as [|c chunks IH]; intros σ; [done|].
  rewrite remove_temp_files_cons. etrans; [apply IH|].
  case_match; [|done]. simpl. apply subseteq_difference_l. done.
Qed.

Lemma remove_temp_files_removes chunks σ c :
  c ∈ chunks -> Chunk.temp_file c ∉ fs (remove_temp_files chunks σ).
Proof.
  revert σ. induction chunks as [|c0 chunks IH]; intros σ Hin.
  - by apply not_elem_of_nil in Hin.
  - rewrite remove_temp_files_cons.
    apply elem_of_cons in Hin as [->|Hin]; [|by apply IH].
    intros Hc. apply remove_temp_files_subset in Hc.
    unfold path_exists in Hc.
    destruct (bool_decide_reflect (Chunk.temp_file c0 ∈ fs σ)) as [Hin|Hout];
      simpl in Hc; [|done].
    apply elem_of_difference in Hc as [_ Hc]. by apply Hc, elem_of_singleton.
Qed.

(** The chunked strategy, when it reports a failure (a chunk failed, or the
    download was paused or canceled), has removed the part file of every
    chunk. *)
Lemma download_in_chunks_failure_cleans (cfg : Config) (l : loc)
    (proxies : gmap string string) (headers : gmap string value)
    (script : nat -> nat -> CAttempt) (sc : list sched) (σ σ' : State) :
  _download_in_chunks cfg l proxies headers script sc σ = (RFalse, σ') ->
  forall d c, deref σ' l = Some d -> c ∈ Download.chunks d ->
              Chunk.temp_file c ∉ fs σ'.
Proof.
  unfold _download_in_chunks. intros H.
  destruct (deref σ l) as [d0|]; [|discriminate].
  destruct (resolve_conflict _ _ _ _) as [[[|tp] σ1]|]; try discriminate.
  destruct (makedirs _ σ1) as [σ2|]; [|discriminate].
  destruct (chunk_count cfg =? 0); [discriminate|].
  destruct (run_sched _ _ _ _ _ _ _ _) as [ths1 σ3].
  destruct (join_all _ _ _ _ _ _ _) as [ths2 σ4].
  destruct (forallb _ _); [discriminate|].
  injection H as <-. intros d c Hd Hc.
  unfold deref in Hd. rewrite remove_temp_files_heap in Hd.
  change (deref (update l (Download.set_error "Some chunks failed to download") σ4) l
          = Some d) in Hd.
  rewrite deref_update in Hd.
  destruct (deref σ4 l) as [d4|]; [|discriminate]. simpl in Hd.
  injection Hd as <-. simpl in Hc |- *.
  by apply remove_temp_files_removes.
Qed.

(** C3. A single-stream transfer canceled after 60 of its 100 bytes ends as
    [Canceled] and its part file is still there. *)
Theorem part_file_survives_cancel :
  status_of Scenario.canceled_at_60 "u1" = Some Canceled /\
  is_part_file "/dl/f.bin" "/dl/f.bin.part" = true /\
  path_exists "/dl/f.bin.part" Scenario.canceled_at_60 = true.
Proof. vm_compute. repeat split; reflexivity. Qed.

(** ** Strategy selection *)





(** When the [Content-Length] value passes [isdigit] and [int] raises on it,
    [_download_file] records the error after the HEAD request and returns
    [False]: neither strategy is run. *)
Lemma probe_value_error_fails (cfg : Config) (i : string) (env : Env) (σ : State)
    (l : loc) (d : Download.t) (r : Response) (content_length : string) :
  downloads σ !! i = Some l ->
  deref σ l = Some d ->
  env_head env = HeadOk r ->
  resp_headers r !! "content-length" = Some content_length ->
  Str.isdigit content_length = true ->
  Str.int_of content_length = None ->
  _download_file cfg i env σ
  = (RFalse, update l (Download.set_error (Str.int_error content_length))
               (send (head_request cfg d) σ)).
Proof.
  intros Hl Hd Hh Hcl Hdig Hint.
  unfold _download_file. rewrite Hl, Hd, Hh. fold (head_request cfg d).
  unfold record_probe, probe_size. rewrite Hcl, Hdig, Hint.
  assert (Str.is_empty content_length = false) as ->.
  { destruct content_length; [discriminate Hdig|reflexivity]. }
  simpl. unfold file_exception. simpl. by rewrite Hl.
Qed.


(** ** Request headers *)

(** Against C9 as stated: with [send_referer] set to false the header map
    has a [Referer] entry (with an empty value), and with the default
    setting it has none. *)
Lemma referer_present_when_disabled :
  get_setting (settings_manager Scenario.cfg_no_referer) "send_referer" (VBool true)
    = VBool false /\
  _get_headers Scenario.cfg_no_referer !! "Referer" = Some (VStr "") /\
  _get_headers Scenario.cfg0 !! "Referer" = None.
Proof. vm_compute. repeat split; reflexivity. Qed.

(** C9, in the form the code satisfies. The header map has [User-Agent] equal to the fixed browser
    string for the type [Browser default], equal to the configured
    [custom_user_agent] for [Custom], and no [User-Agent] for any other
    type; it has a [Referer] entry, whose value is the empty string, exactly
    when [send_referer] is false, and no [Referer] entry otherwise. *)
Theorem get_headers_spec (cfg : Config) :
  let s := settings_manager cfg in
  let user_agent_type := get_setting s "user_agent_type" (VStr "Browser default") in
  let send_referer := get_setting s "send_referer" (VBool true) in
  _get_headers cfg !! "User-Agent" =
    (if bool_decide (user_agent_type = VStr "Browser default")
     then Some (VStr browser_user_agent)
     else if bool_decide (user_agent_type = VStr "Custom")
          then Some (get_setting s "custom_user_agent" (VStr ""))
          else None) /\
  _get_headers cfg !! "Referer" =
    (if truthy send_referer then None else Some (VStr "")).
Proof.
  intros s user_agent_type send_referer. unfold _get_headers.
  fold s. fold user_agent_type. fold send_referer.
  clearbody user_agent_type send_referer.
  destruct (truthy send_referer); simpl;
    destruct (bool_decide_reflect (user_agent_type = VStr "Custom")) as [HC|HC];
    destruct (bool_decide_reflect (user_agent_type = VStr "Browser default")) as [HB|HB];
    try (rewrite HC in HB; discriminate HB); simpl; split;
    repeat first [ rewrite lookup_insert_eq | rewrite lookup_insert_ne by done
                 | rewrite lookup_empty ]; done.
Qed.

(** ** Transport selection *)

(** Against C6 as stated: a transfer submitted in mode Tor while Tor is not
    enabled runs to [Completed] without an error, and each of its requests
    goes out with an empty proxy map, that is over a direct connection. *)
Lemma tor_mode_runs_direct :
  is_tor_enabled (privacy_manager Scenario.cfg0) = false /\
  (Download.privacy_mode <$> get_download "u1" Scenario.tor_run) = Some "Tor" /\
  status_of Scenario.tor_run "u1" = Some Completed /\
  (Download.error <$> get_download "u1" Scenario.tor_run) = Some None /\
  map (fun r => (req_method r, map_to_list (req_proxies r))) (net Scenario.tor_run)
    = [("HEAD", []); ("GET", [])].
Proof. vm_compute. repeat split; reflexivity. Qed.

(** ** The byte ranges of the chunks *)

Section Ranges.

Variable cfg : Config.
Variable target_path : string.
Variable size : Z.

Let n := chunk_count cfg.
Let q := size `div` n.

(** the chunk built for index [i] *)
Lemma prepare_chunks_lookup (i : nat) (c : Chunk.t) :
  prepare_chunks cfg target_path size !! i = Some c <->
  (Z.of_nat i < n /\
   Chunk.start c = Z.of_nat i * q /\
   Chunk.end_ c = (if Z.of_nat i <? n - 1 then Z.of_nat i * q + q - 1 else size - 1) /\
   c = Chunk.mk (Chunk.start c) (Chunk.end_ c)
         (target_path ++ ".part" ++ pretty (Z.of_nat i)) 0 CWaiting None).
Proof.
  unfold prepare_chunks. fold n. fold q. rewrite list_lookup_fmap. split.
  - destruct (seq 0 (Z.to_nat n) !! i) as [j|] eqn:Hj; simpl; [|discriminate].
    apply lookup_seq in Hj as [-> Hlt]. simpl. intros [= <-]. simpl.
    repeat split; lia.
  - intros (Hlt & Hs & He & Hc).
    assert (Hj : seq 0 (Z.to_nat n) !! i = Some i) by (apply lookup_seq; lia).
    rewrite Hj. simpl. rewrite Hc, Hs, He. reflexivity.
Qed.



Hypothesis size_pos : 0 < size.
Hypothesis count_pos : 0 < n.

Lemma q_nonneg : 0 <= q.
Proof. apply Z.div_pos; lia. Qed.

Lemma q_times_n : n * q <= size.
Proof. unfold q. apply Z.mul_div_le. lia. Qed.

(** a chunk starts no later than one past its end *)
Lemma chunk_start_le (i : nat) (c : Chunk.t) :
  prepare_chunks cfg target_path size !! i = Some c ->
  Chunk.start c <= Chunk.end_ c + 1.
Proof.
  intros (Hlt & -> & -> & _)%prepare_chunks_lookup.
  pose proof q_nonneg. pose proof q_times_n.
  destruct (Z.ltb_spec (Z.of_nat i) (n - 1)); [lia|].
  assert (Z.of_nat i = n - 1) as -> by lia. nia.
Qed.



End Ranges.



(** the four ranges of a file of 100000 bytes *)
Example four_chunks :
  map (fun c => (Chunk.start c, Chunk.end_ c, Chunk.temp_file c))
      (prepare_chunks Scenario.cfg0 "/dl/f.bin" 100000)
  = [(0, 24999, "/dl/f.bin.part0"); (25000, 49999, "/dl/f.bin.part1");
     (50000, 74999, "/dl/f.bin.part2"); (75000, 99999, "/dl/f.bin.part3")].
Proof. vm_compute. reflexivity. Qed.

(** ** Automatic renaming *)


Lemma string_app_cons (a : ascii) (s t : string) : String a s ++ t = String a (s ++ t).
Proof. reflexivity. Qed.

Lemma string_length_app (s t : string) :
  String.length (s ++ t) = (String.length s + String.length t)%nat.
Proof.
  induction s as [|a s IH]; [reflexivity|].
  rewrite string_app_cons. simpl. by rewrite IH.
Qed.







(** with [/dl/f.bin] and [/dl/f (1).bin] taken, the download becomes [f (2).bin] *)
Example auto_rename_second :
  (fun r => match r with
            | Some (Proceed p, σ') => Some (p, Download.filename <$> deref σ' 0%nat)
            | _ => None
            end)
    (resolve_conflict Scenario.cfg0 0%nat "/dl/f.bin" Scenario.with_conflicts)
  = Some ("/dl/f (2).bin", Some "f (2).bin").
Proof. vm_compute. reflexivity. Qed.

(** ** The proxies of the requests of a transfer *)

Section Sends.

Variable cfg : Config.
Variable P : Request -> Prop.

Lemma sends_eq σ σ' : net σ' = net σ -> sends P σ σ'.
Proof. intros H. exists []. rewrite H, app_nil_r. auto. Qed.

Lemma sends_refl σ : sends P σ σ.
Proof. by apply sends_eq. Qed.

Lemma sends_trans σ1 σ2 σ3 : sends P σ1 σ2 -> sends P σ2 σ3 -> sends P σ1 σ3.
Proof.
  intros (rs1 & H1 & F1) (rs2 & H2 & F2). exists (rs1 ++ rs2)%list.
  rewrite H2, H1, app_assoc. split; [done|]. by apply Forall_app.
Qed.

Lemma sends_send r σ σ' : P r -> net σ' = (net σ ++ [r])%list -> sends P σ σ'.
Proof. intros Hr H. exists [r]. split; [done|]. by constructor. Qed.

Lemma net_apply_op op σ : net (apply_op op σ) = net σ.
Proof.
  destruct op; simpl;
    unfold pause_download, resume_download, delete_download, cancel_download;
    repeat case_match; reflexivity.
Qed.

Lemma net_stream_loop l body σ : net (stream_loop l body σ).2 = net σ.
Proof.
  revert σ. induction body as [|[n|op] body IH]; intros σ; simpl.
  - done.
  - repeat case_match; simpl; try done; by rewrite IH.
  - by rewrite IH, net_apply_op.
Qed.

Lemma net_resolve_conflict l target_path σ c σ' :
  resolve_conflict cfg l target_path σ = Some (c, σ') -> net σ' = net σ.
Proof.
  unfold resolve_conflict. intros H.
  repeat case_match; simplify_eq; reflexivity.
Qed.

Lemma net_makedirs d σ σ' : makedirs d σ = Some σ' -> net σ' = net σ.
Proof. unfold makedirs. case_match; intros; simplify_eq; reflexivity. Qed.

Lemma net_remove_temp_files chunks σ : net (remove_temp_files chunks σ) = net σ.
Proof.
  unfold remove_temp_files. revert σ.
  induction chunks as [|c chunks IH]; intros σ; simpl; [done|].
  rewrite IH. by case_match.
Qed.

Lemma net_file_exception i e σ : net (file_exception i e σ).2 = net σ.
Proof. unfold file_exception. by case_match. Qed.

Lemma net_record_probe l r σ σ' : record_probe l r σ = inr σ' -> net σ' = net σ.
Proof.
  unfold record_probe. intros H.
  destruct (probe_size r); simplify_eq; repeat case_match; reflexivity.
Qed.

Lemma net_post_process l file_path σ :
  net (_post_process_download cfg l file_path σ) = net σ.
Proof. unfold _post_process_download. by case_match. Qed.

Lemma net_worker_commit i r σ : net (worker_commit i r σ) = net σ.
Proof. unfold worker_commit. repeat case_match; reflexivity. Qed.

Variable proxies : gmap string string.
Hypothesis P_proxies : forall r, req_proxies r = proxies -> P r.

Lemma sends_single_attempts fuel l url headers temp_path target_path script n retries σ :
  sends P σ (single_attempts cfg fuel l url proxies headers temp_path target_path
                             script n retries σ).2.
Proof.
  revert n retries σ. induction fuel as [|fuel IH]; intros n retries σ; simpl.
  - apply sends_refl.
  - destruct (retries <=? retry_count cfg); [|apply sends_refl].
    set (r := {| req_method := "GET"; req_url := url;
                 req_headers := headers; req_proxies := proxies |}).
    apply (sends_trans σ (send r σ));
      [apply (sends_send r); [by apply P_proxies|reflexivity]|].
    destruct (script n) as [e|body fin].
    + destruct (retry_count cfg <? retries + 1); [|apply IH].
      apply sends_eq. by case_match.
    + destruct (stream_loop _ _ _) as [stopped σ1] eqn:Hloop.
      assert (Hnet : net σ1 = net (send r σ)).
      { change σ1 with (stopped, σ1).2. rewrite <- Hloop. by rewrite net_stream_loop. }
      destruct stopped; [apply sends_eq; exact Hnet|].
      destruct fin as [e|];
        [|apply sends_eq; simpl; rewrite net_post_process; exact Hnet].
      eapply sends_trans; [apply sends_eq, Hnet|].
      destruct (retry_count cfg <? retries + 1); [|apply IH].
      apply sends_eq. by case_match.
Qed.

Lemma sends_download_single l headers script σ :
  sends P σ (_download_single cfg l proxies headers script σ).2.
Proof.
  unfold _download_single.
  destruct (deref σ l) as [d|]; [|apply sends_refl].
  destruct (resolve_conflict _ _ _ _) as [[[|tp] σ1]|] eqn:Hres; [| |apply sends_refl].
  - apply sends_eq. by eapply net_resolve_conflict.
  - eapply sends_trans; [apply sends_eq; by eapply net_resolve_conflict|].
    destruct (makedirs _ σ1) as [σ2|] eqn:Hmk; [|apply sends_refl].
    eapply sends_trans; [apply sends_eq; by eapply net_makedirs|].
    apply sends_single_attempts.
Qed.

Lemma sends_chunk_step l k headers script th σ :
  sends P σ (chunk_step cfg l k proxies headers script th σ).2.
Proof.
  unfold chunk_step, chunk_exception.
  repeat case_match; simplify_eq; simpl;
    try (apply sends_eq; reflexivity);
    (eapply sends_send; [|reflexivity]); by apply P_proxies.
Qed.

Lemma sends_step_thread l headers script k ths σ :
  sends P σ (step_thread cfg l proxies headers script k ths σ).2.
Proof.
  unfold step_thread. destruct (ths !! k) as [th|]; [|apply sends_refl].
  pose proof (sends_chunk_step l k headers (script k) th σ) as H.
  by destruct (chunk_step _ _ _ _ _ _ _ _).
Qed.

Lemma sends_run_sched l headers script sc ths σ :
  sends P σ (run_sched cfg l proxies headers script sc ths σ).2.
Proof.
  revert ths σ. induction sc as [|[k|op] sc IH]; intros ths σ; simpl.
  - apply sends_refl.
  - pose proof (sends_step_thread l headers script k ths σ) as H.
    destruct (step_thread _ _ _ _ _ _ _ _) as [ths1 σ1].
    eapply sends_trans; [exact H|apply IH].
  - eapply sends_trans; [apply sends_eq, net_apply_op|apply IH].
Qed.

Lemma sends_finish_thread fuel l headers script k ths σ :
  sends P σ (finish_thread cfg fuel l proxies headers script k ths σ).2.
Proof.
  revert ths σ. induction fuel as [|fuel IH]; intros ths σ; simpl.
  - apply sends_refl.
  - pose proof (sends_step_thread l headers script k ths σ) as H.
    destruct (step_thread _ _ _ _ _ _ _ _) as [ths1 σ1].
    eapply sends_trans; [exact H|apply IH].
Qed.

Lemma sends_join_all l headers script ths σ :
  sends P σ (join_all cfg l proxies headers script ths σ).2.
Proof.
  unfold join_all. generalize (seq 0 (length ths)) as ks.
  intros ks. revert ths σ.
  induction ks as [|k ks IH]; intros ths σ; simpl; [apply sends_refl|].
  pose proof (sends_finish_thread (thread_bound cfg (script k)) l headers script k ths σ) as H.
  destruct (finish_thread _ _ _ _ _ _ _ _ _) as [ths1 σ1].
  eapply sends_trans; [exact H|apply IH].
Qed.

Lemma sends_download_in_chunks l headers script sc σ :
  sends P σ (_download_in_chunks cfg l proxies headers script sc σ).2.
Proof.
  unfold _download_in_chunks.
  destruct (deref σ l) as [d|]; [|apply sends_refl].
  destruct (resolve_conflict _ _ _ _) as [[[|tp] σ1]|] eqn:Hres; [| |apply sends_refl].
  - apply sends_eq. by eapply net_resolve_conflict.
  - eapply sends_trans; [apply sends_eq; by eapply net_resolve_conflict|].
    destruct (makedirs _ σ1) as [σ2|] eqn:Hmk; [|apply sends_refl].
    eapply sends_trans; [apply sends_eq; by eapply net_makedirs|].
    destruct (chunk_count cfg =? 0); [apply sends_refl|].
    match goal with
    | |- context [run_sched cfg l proxies headers script sc ?ths ?s] =>
        pose proof (sends_run_sched l headers script sc ths s) as Hrun;
        destruct (run_sched cfg l proxies headers script sc ths s) as [ths1 σ3]
    end.
    pose proof (sends_join_all l headers script ths1 σ3) as Hjoin.
    destruct (join_all _ _ _ _ _ _ _) as [ths2 σ4].
    eapply sends_trans; [exact Hrun|]. eapply sends_trans; [exact Hjoin|].
    case_match; simpl; apply sends_eq; simpl;
      rewrite ?net_post_process, net_remove_temp_files; reflexivity.
Qed.

End Sends.

(** Every request of a run of [_download_file], the HEAD request first,
    carries the proxy map chosen for the privacy mode of the download. *)
Lemma download_file_proxies (cfg : Config) (i : string) (env : Env) (σ : State)
    (l : loc) (d : Download.t) :
  downloads σ !! i = Some l ->
  deref σ l = Some d ->
  exists r rs,
    net (_download_file cfg i env σ).2 = (net σ ++ r :: rs)%list /\
    req_method r = "HEAD" /\
    Forall (fun r => req_proxies r = _get_proxies cfg (Download.privacy_mode d)) (r :: rs).
Proof.
  intros Hl Hd. unfold _download_file. rewrite Hl, Hd.
  set (proxies := _get_proxies cfg (Download.privacy_mode d)).
  set (r := {| req_method := "HEAD"; req_url := Download.url d;
               req_headers := _get_headers cfg; req_proxies := proxies |}).
  assert (Hrest : forall σ', sends (fun r => req_proxies r = proxies) (send r σ) σ' ->
            exists r0 rs, net σ' = (net σ ++ r0 :: rs)%list /\ req_method r0 = "HEAD" /\
                          Forall (fun r => req_proxies r = proxies) (r0 :: rs)).
  { intros σ' (rs & Hnet & Hall). exists r, rs. split; [|split; [done|by constructor]].
    rewrite Hnet. simpl. by rewrite <- app_assoc. }
  apply Hrest.
  destruct (env_head env) as [resp|e]; [|apply sends_eq, net_file_exception].
  destruct (record_probe l resp (send r σ)) as [e|σp] eqn:Hp;
    [apply sends_eq, net_file_exception|].
  apply net_record_probe in Hp.
  match goal with
  | |- context [match choose_strategy ?c ?s ?z with _ => _ end] =>
      destruct (choose_strategy c s z)
  end.
  - pose proof (sends_download_in_chunks cfg (fun r => req_proxies r = proxies) proxies
                  (fun _ H => H) l (_get_headers cfg) (env_chunk env) (env_sched env)
                  σp) as H.
    destruct (_download_in_chunks _ _ _ _ _ _ _) as [ret σ1]. simpl in H.
    eapply sends_trans; [apply sends_eq, Hp|].
    eapply sends_trans; [exact H|].
    apply sends_eq. destruct ret; try reflexivity. apply net_file_exception.
  - pose proof (sends_download_single cfg (fun r => req_proxies r = proxies) proxies
                  (fun _ H => H) l (_get_headers cfg) (env_single env)
                  σp) as H.
    destruct (_download_single _ _ _ _ _ _) as [ret σ1]. simpl in H.
    eapply sends_trans; [apply sends_eq, Hp|].
    eapply sends_trans; [exact H|].
    apply sends_eq. destruct ret; try reflexivity. apply net_file_exception.
Qed.

(** C6, in the form the code satisfies. For a transfer submitted in mode Tor while the privacy
    provider reports Tor as not enabled, [_get_proxies] returns the empty
    proxy map, and the transfer proceeds: its HEAD request and every request
    after it go out over a direct connection. *)
Theorem tor_disabled_goes_direct (cfg : Config) (i : string) (env : Env) (σ : State)
    (l : loc) (d : Download.t) :
  is_tor_enabled (privacy_manager cfg) = false ->
  downloads σ !! i = Some l ->
  deref σ l = Some d ->
  Download.privacy_mode d = "Tor" ->
  _get_proxies cfg "Tor" = ∅ /\
  exists r rs,
    net (_download_file cfg i env σ).2 = (net σ ++ r :: rs)%list /\
    req_method r = "HEAD" /\
    Forall direct (r :: rs).
Proof.
  intros Htor Hl Hd Hmode.
  assert (Hempty : _get_proxies cfg "Tor" = ∅).
  { unfold _get_proxies. rewrite Htor. reflexivity. }
  split; [done|].
  destruct (download_file_proxies cfg i env σ l d Hl Hd) as (r & rs & Hnet & Hhead & Hall).
  exists r, rs. split; [done|]. split; [done|].
  rewrite Hmode, Hempty in Hall. exact Hall.
Qed.

Lemma tor_disabled_goes_direct_witness :
  _get_proxies Scenario.cfg0 "Tor" = ∅ /\
  exists r rs,
    net (_download_file Scenario.cfg0 "u1" (Scenario.single_env [SData 100])
           (worker_take (Scenario.submitted "Tor")).2).2
      = (net (worker_take (Scenario.submitted "Tor")).2 ++ r :: rs)%list /\
    req_method r = "HEAD" /\
    Forall direct (r :: rs).
Proof.
  apply (tor_disabled_goes_direct Scenario.cfg0 "u1" (Scenario.single_env [SData 100])
           (worker_take (Scenario.submitted "Tor")).2 0%nat
           (Download.set_status Downloading
              (Download.set_privacy_mode "Tor"
                 (Download.init "u1" "http://host/f.bin" "/dl" (Some "f.bin") "/f.bin"))));
    vm_compute; reflexivity.
Defined.

(** with Tor enabled the same transfer is routed through the SOCKS5 port *)
Example tor_enabled_proxies :
  map_to_list (_get_proxies
     (DownloadManager_init []
        {| tor_enabled := true; tor_address := "127.0.0.1"; tor_port := 9050;
           proxy_type := "None"; proxy_address := ""; proxy_port := 8080;
           proxy_username := ""; proxy_password := "" |}) "Tor")
  ≡ₚ [("http", "socks5://127.0.0.1:9050"); ("https", "socks5://127.0.0.1:9050")].
Proof. vm_compute. apply perm_swap || reflexivity. Qed.

(** * Further properties of the code *)

(** ** The settings store *)

Lemma assign_first_spec (s : Settings) (key : string) (v : value) :
  match assign_first s key v with
  | Some (_, s') =>
      has_key s key = true /\
      (forall d, get_setting s' key d = v) /\
      (forall key' d, key' <> key -> get_setting s' key' d = get_setting s key' d)
  | None => has_key s key = false
  end.
Proof.
  induction s as [|[name vals] rest IH]; simpl; [done|].
  destruct (bool_decide_reflect (is_Some (vals !! key))) as [Hk|Hk]; simpl.
  - split; [done|]. split.
    + intros d. by rewrite lookup_insert_eq.
    + intros key' d Hne. by rewrite lookup_insert_ne.
  - destruct (assign_first rest key v) as [[found rest']|]; [|done].
    destruct IH as (Hhas & Hget & Hother). split; [done|]. split.
    + intros d. simpl. destruct (vals !! key) eqn:E; [by destruct Hk|]. apply Hget.
    + intros key' d Hne. simpl. destruct (vals !! key'); [done|]. by apply Hother.
Qed.

(** X1. [set_setting] without a section succeeds exactly when some section
    has the key; then [get_setting] returns the new value for that key and
    what it returned before for every other key; when it fails, nothing
    changes. *)
Theorem set_setting_then_get (key : string) (v : value) (m : SettingsManager.t) :
  let r := SettingsManager.set_setting key v None m in
  (r.1 = true <-> has_key (SettingsManager.settings m) key = true) /\
  (r.1 = true ->
     (forall d, get_setting (SettingsManager.settings r.2) key d = v) /\
     (forall key' d, key' <> key ->
        get_setting (SettingsManager.settings r.2) key' d
        = get_setting (SettingsManager.settings m) key' d)) /\
  (r.1 = false -> r.2 = m).
Proof.
  simpl. unfold SettingsManager.set_setting.
  pose proof (assign_first_spec (SettingsManager.settings m) key v) as H.
  destruct (assign_first _ _ _) as [[found s']|]; simpl.
  - destruct H as (Hhas & Hget & Hother). repeat split; try done. 
  - rewrite H. repeat split; try done.
Qed.

Lemma set_setting_then_get_witness :
  get_setting
    (SettingsManager.settings
       (SettingsManager.set_setting "retry_count" (VInt 7) None
          (SettingsManager.mk
             [("download", {[ "chunk_count" := VInt 4 ]});
              ("connection", {[ "retry_count" := VInt 3 ]})] [] false)).2)
    "retry_count" VNone = VInt 7.
Proof.
  apply (proj1 (proj2 (set_setting_then_get "retry_count" (VInt 7)
           (SettingsManager.mk
              [("download", {[ "chunk_count" := VInt 4 ]});
               ("connection", {[ "retry_count" := VInt 3 ]})] [] false)))).
  vm_compute. reflexivity.
Defined.

Lemma assign_in_section_spec (s : Settings) (section key : string) (v : value) :
  has_section s section = true ->
  get_section (assign_in_section s section key v) section
    = <[key := v]> (get_section s section) /\
  (forall other, other <> section ->
     get_section (assign_in_section s section key v) other = get_section s other).
Proof.
  induction s as [|[name vals] rest IH]; simpl; [done|].
  unfold Str.eqb at 1 2 4.
  destruct (bool_decide_reflect (name = section)) as [->|Hne]; simpl.
  - intros _. unfold Str.eqb. rewrite bool_decide_eq_true_2 by done. split; [done|].
    intros other Hother. by rewrite bool_decide_eq_false_2 by congruence.
  - intros Hhas. destruct (IH Hhas) as [Hsec Hoth].
    unfold Str.eqb. rewrite bool_decide_eq_false_2 by congruence. split; [done|].
    intros other Hother. fold (Str.eqb name other).
    destruct (Str.eqb name other); [done|]. by apply Hoth.
Qed.

(** X2. [set_setting] with a section succeeds exactly when the section
    exists; the key is then set in that section and the other sections are
    as before, so that [get_setting] still answers from an earlier section
    that has the same key. *)
Theorem set_setting_in_section (key : string) (v : value) (section : string)
    (m : SettingsManager.t) :
  let r := SettingsManager.set_setting key v (Some section) m in
  (r.1 = true <-> has_section (SettingsManager.settings m) section = true) /\
  (r.1 = true ->
     get_section (SettingsManager.settings r.2) section !! key = Some v /\
     (forall other, other <> section ->
        get_section (SettingsManager.settings r.2) other
        = get_section (SettingsManager.settings m) other) /\
     SettingsManager.changed r.2 = (SettingsManager.changed m ++ [section])%list /\
     SettingsManager.pending_save r.2 = true) /\
  (r.1 = false -> r.2 = m).
Proof.
  simpl. unfold SettingsManager.set_setting.
  destruct (has_section (SettingsManager.settings m) section) eqn:Hhas; simpl.
  - destruct (assign_in_section_spec (SettingsManager.settings m) section key v Hhas)
      as [Hsec Hoth].
    repeat split; try done. rewrite Hsec. by rewrite lookup_insert_eq.
  - repeat split; done.
Qed.

Lemma set_setting_in_section_witness :
  get_section
    (SettingsManager.settings
       (SettingsManager.set_setting "retry_count" (VInt 7) (Some "download")
          (SettingsManager.mk
             [("download", {[ "chunk_count" := VInt 4 ]});
              ("connection", {[ "retry_count" := VInt 3 ]})] [] false)).2)
    "download" !! "retry_count" = Some (VInt 7).
Proof.
  apply (proj1 (proj2 (set_setting_in_section "retry_count" (VInt 7) "download"
           (SettingsManager.mk
              [("download", {[ "chunk_count" := VInt 4 ]});
               ("connection", {[ "retry_count" := VInt 3 ]})] [] false)))).
  vm_compute. reflexivity.
Defined.

Lemma get_all_settings_snoc (s : Settings) (sec : string * gmap string value) :
  get_all_settings (s ++ [sec])%list = sec.2 ∪ get_all_settings s.
Proof. unfold get_all_settings. by rewrite foldl_snoc. Qed.

(** X3. The flattened dictionary of [get_all_settings] resolves a key that
    occurs in several sections in favour of the last section, whereas
    [get_setting] answers from the first: looking a key up in the flattened
    dictionary is [get_setting] on the sections in reverse order. *)
Theorem get_all_settings_last_wins (s : Settings) (key : string) (d : value) :
  from_option (fun v => v) d (get_all_settings s !! key) = get_setting (reverse s) key d.
Proof.
  induction s as [|sec s IH] using rev_ind.
  - reflexivity.
  - rewrite get_all_settings_snoc, reverse_snoc. destruct sec as [name vals]. simpl.
    rewrite lookup_union. destruct (vals !! key) as [v|] eqn:E; simpl.
    + by destruct (get_all_settings s !! key).
    + rewrite <- IH. by destruct (get_all_settings s !! key).
Qed.

Lemma update_section_spec (s : Settings) (section : string) (values : gmap string value) :
  get_section (update_section s section values) section = values ∪ get_section s section /\
  (forall other, other <> section ->
     get_section (update_section s section values) other = get_section s other).
Proof.
  induction s as [|[name vals] rest IH]; simpl.
  - unfold Str.eqb. rewrite bool_decide_eq_true_2 by done. split.
    + by rewrite (right_id_L ∅ (∪)).
    + intros other Hne. by rewrite bool_decide_eq_false_2 by congruence.
  - destruct IH as [Hsec Hoth]. unfold Str.eqb.
    destruct (bool_decide_reflect (name = section)) as [->|Hne]; simpl; unfold Str.eqb.
    + rewrite bool_decide_eq_true_2 by done. split; [done|].
      intros other Hother. by rewrite bool_decide_eq_false_2 by congruence.
    + rewrite bool_decide_eq_false_2 by done. split; [done|].
      intros other Hother. case_bool_decide; [done|]. by apply Hoth.
Qed.

(** X4. After [save_section], the section holds the saved values on top of
    the ones it had (a saved key overwrites, the other keys stay), every
    other section is as before, one [settings_changed] signal for the
    section has been emitted and a save is pending; the call returns
    [True] also for a section that did not exist. *)
Theorem save_section_then_get (section : string) (values : gmap string value)
    (m : SettingsManager.t) :
  let r := SettingsManager.save_section section values m in
  r.1 = true /\
  (forall key,
     get_section (SettingsManager.settings r.2) section !! key =
       match values !! key with
       | Some v => Some v
       | None => get_section (SettingsManager.settings m) section !! key
       end) /\
  (forall other, other <> section ->
     get_section (SettingsManager.settings r.2) other
     = get_section (SettingsManager.settings m) other) /\
  SettingsManager.changed r.2 = (SettingsManager.changed m ++ [section])%list /\
  SettingsManager.pending_save r.2 = true.
Proof.
  simpl.
  destruct (update_section_spec (SettingsManager.settings m) section values) as [Hsec Hoth].
  repeat split; try done.
  intros key. rewrite Hsec, lookup_union.
  destruct (values !! key); simpl; [|by rewrite (left_id_L None _)].
  by destruct (get_section (SettingsManager.settings m) section !! key).
Qed.

(** ** The privacy provider *)

Lemma patched_only_when_enabled_call (h : PrivacyManager.Host) (c : PrivacyManager.Call)
    (pm : PrivacyManager.t) :
  patched_only_when_enabled pm -> patched_only_when_enabled (PrivacyManager.call h c pm).
Proof.
  unfold patched_only_when_enabled. destruct pm as [p b]. simpl.
  destruct c as [| |enabled|]; simpl;
    unfold PrivacyManager.apply_tor_settings, PrivacyManager.set_tor_enabled,
      PrivacyManager.enable_tor, PrivacyManager.disable_tor; simpl;
    repeat (case_match; simpl in *; simplify_eq); auto; try discriminate.
Qed.

Lemma proxy_fields_call (h : PrivacyManager.Host) (c : PrivacyManager.Call)
    (pm : PrivacyManager.t) :
  proxy_fields (PrivacyManager.settings (PrivacyManager.call h c pm))
  = proxy_fields (PrivacyManager.settings pm).
Proof.
  destruct pm as [p b].
  destruct c as [| |enabled|]; simpl;
    unfold PrivacyManager.apply_tor_settings, PrivacyManager.set_tor_enabled,
      PrivacyManager.enable_tor, PrivacyManager.disable_tor; simpl;
    repeat (case_match; simpl in *; simplify_eq); reflexivity.
Qed.

(** X5. Whatever sequence of [enable_tor], [disable_tor], [set_tor_enabled]
    and [apply_settings] is called on a fresh privacy manager, on whatever
    host, the socket function is replaced only while the Tor flag is set,
    and the address, port and proxy settings are never touched. *)
Theorem tor_switching_invariant (h : PrivacyManager.Host) (calls : list PrivacyManager.Call) :
  let pm := foldl (fun pm c => PrivacyManager.call h c pm) PrivacyManager.init calls in
  patched_only_when_enabled pm /\
  proxy_fields (PrivacyManager.settings pm)
  = proxy_fields (PrivacyManager.settings PrivacyManager.init).
Proof.
  simpl. induction calls as [|c calls IH] using rev_ind.
  - split; [intros H; discriminate H|reflexivity].
  - rewrite foldl_snoc. destruct IH as [Hinv Hfields]. split.
    + by apply patched_only_when_enabled_call.
    + by rewrite proxy_fields_call.
Qed.

(** X6. [set_tor_enabled(True)] on a manager whose flag is off stores the
    flag before it tries to enable Tor: when the [stem] library is missing
    or no Tor service answers, the call returns [False], the socket function
    is left as it was, and yet [is_tor_enabled] answers [True] afterwards. *)
Theorem set_tor_enabled_failure_keeps_flag (h : PrivacyManager.Host) (pm : PrivacyManager.t) :
  tor_enabled (PrivacyManager.settings pm) = false ->
  PrivacyManager.stem_available h = false \/ PrivacyManager.tor_running h = false ->
  let r := PrivacyManager.set_tor_enabled h true pm in
  r.1 = false /\
  is_tor_enabled (PrivacyManager.settings r.2) = true /\
  PrivacyManager.patched r.2 = PrivacyManager.patched pm.
Proof.
  intros Hoff Hhost. simpl.
  unfold PrivacyManager.set_tor_enabled, PrivacyManager.enable_tor.
  rewrite Hoff. simpl.
  destruct Hhost as [-> | Hrun]; simpl; [done|].
  rewrite Hrun. by destruct (PrivacyManager.stem_available h).
Qed.

Lemma set_tor_enabled_failure_keeps_flag_witness :
  (PrivacyManager.set_tor_enabled
     {| PrivacyManager.stem_available := true; PrivacyManager.socks := true;
        PrivacyManager.tor_running := false |} true PrivacyManager.init).1 = false /\
  is_tor_enabled
    (PrivacyManager.settings
       (PrivacyManager.set_tor_enabled
          {| PrivacyManager.stem_available := true; PrivacyManager.socks := true;
             PrivacyManager.tor_running := false |} true PrivacyManager.init).2) = true.
Proof.
  pose proof (set_tor_enabled_failure_keeps_flag
                {| PrivacyManager.stem_available := true; PrivacyManager.socks := true;
                   PrivacyManager.tor_running := false |}
                PrivacyManager.init eq_refl (or_intror eq_refl)) as (H1 & H2 & _).
  split; [exact H1|exact H2].
Defined.

(** X7. [set_tor_enabled] succeeds in switching Tor on exactly when the
    [stem] library is there and the Tor service answers; the socket function
    is then replaced only if the [socks] library is there too, and without it
    the call still returns [True] and sets the flag. *)
Theorem set_tor_enabled_success (h : PrivacyManager.Host) (pm : PrivacyManager.t) :
  tor_enabled (PrivacyManager.settings pm) = false ->
  PrivacyManager.patched pm = false ->
  let r := PrivacyManager.set_tor_enabled h true pm in
  (r.1 = true <->
     PrivacyManager.stem_available h = true /\ PrivacyManager.tor_running h = true) /\
  (PrivacyManager.patched r.2 = true <->
     PrivacyManager.stem_available h = true /\ PrivacyManager.tor_running h = true
     /\ PrivacyManager.socks h = true).
Proof.
  intros Hoff Hpatched. simpl.
  unfold PrivacyManager.set_tor_enabled, PrivacyManager.enable_tor.
  rewrite Hoff. simpl. rewrite Hpatched.
  destruct (PrivacyManager.stem_available h), (PrivacyManager.tor_running h),
    (PrivacyManager.socks h); simpl; repeat split; intros; try done;
    repeat match goal with H : _ /\ _ |- _ => destruct H end; done.
Qed.

Lemma set_tor_enabled_success_witness :
  (PrivacyManager.set_tor_enabled
     {| PrivacyManager.stem_available := true; PrivacyManager.socks := false;
        PrivacyManager.tor_running := true |} true PrivacyManager.init).1 = true /\
  PrivacyManager.patched
    (PrivacyManager.set_tor_enabled
       {| PrivacyManager.stem_available := true; PrivacyManager.socks := false;
          PrivacyManager.tor_running := true |} true PrivacyManager.init).2 <> true.
Proof.
  pose proof (set_tor_enabled_success
                {| PrivacyManager.stem_available := true; PrivacyManager.socks := false;
                   PrivacyManager.tor_running := true |}
                PrivacyManager.init eq_refl eq_refl) as [H1 H2].
  split.
  - apply H1. split; reflexivity.
  - intros Hp. apply H2 in Hp as (_ & _ & Hs). discriminate Hs.
Defined.

(** ** What every run of the executor preserves *)

Section Preservation.

Variable cfg : Config.
Variable R : State -> State -> Prop.

Hypothesis R_refl : forall σ, R σ σ.
Hypothesis R_trans : forall σ1 σ2 σ3, R σ1 σ2 -> R σ2 σ3 -> R σ1 σ3.
Hypothesis R_update : forall l f σ, field_update f -> R σ (update l f σ).
Hypothesis R_emit : forall s σ, R σ (emit s σ).
Hypothesis R_send : forall r σ, R σ (send r σ).
Hypothesis R_fs : forall f σ, R σ (with_fs f σ).
Hypothesis R_op : forall op σ, R σ (apply_op op σ).

Lemma field_update_simple f :
  (forall d, Download.id (f d) = Download.id d) ->
  (forall d, Download.target_dir (f d) = Download.target_dir d) ->
  (forall d, Download.privacy_mode (f d) = Download.privacy_mode d) ->
  field_update f.
Proof. intros H1 H2 H3 d. auto. Qed.

Ltac field_update_tac := apply field_update_simple; intros; reflexivity.

Ltac solve_R :=
  repeat match goal with
    | |- R ?s ?s => apply R_refl
    | |- R _ (emit _ _) => eapply R_trans; [|apply R_emit]
    | |- R _ (send _ _) => eapply R_trans; [|apply R_send]
    | |- R _ (with_fs _ _) => eapply R_trans; [|apply R_fs]
    | |- R _ (create_file _ _) => unfold create_file
    | |- R _ (remove_file _ _) => unfold remove_file
    | |- R _ (move_file _ _ _) => unfold move_file
    | |- R _ (_post_process_download _ _ _ _) => unfold _post_process_download
    | |- R _ (update_chunk _ _ _ _) => unfold update_chunk
    | |- R _ (update _ _ _) => eapply R_trans; [|apply R_update; field_update_tac]
    | |- R _ (apply_op _ _) => eapply R_trans; [|apply R_op]
    | |- R _ (if _ then _ else _) => case_match
    | |- R _ (match _ with _ => _ end) => case_match
    end.

Lemma R_stream_loop l body σ : R σ (stream_loop l body σ).2.
Proof.
  revert σ. induction body as [|[n|op] body IH]; intros σ; simpl.
  - apply R_refl.
  - repeat case_match; simpl; try apply R_refl; try apply IH.
    eapply R_trans; [|apply IH]. solve_R.
  - eapply R_trans; [|apply IH]. solve_R.
Qed.

Lemma R_resolve_conflict l target_path σ c σ' :
  resolve_conflict cfg l target_path σ = Some (c, σ') -> R σ σ'.
Proof.
  unfold resolve_conflict. intros H.
  repeat case_match; simplify_eq; solve_R.
Qed.

Lemma R_makedirs d σ σ' : makedirs d σ = Some σ' -> R σ σ'.
Proof. unfold makedirs. case_match; intros; simplify_eq. solve_R. Qed.

Lemma R_remove_temp_files chunks σ : R σ (remove_temp_files chunks σ).
Proof.
  unfold remove_temp_files. revert σ.
  induction chunks as [|c chunks IH]; intros σ; simpl; [apply R_refl|].
  eapply R_trans; [|apply IH]. solve_R.
Qed.

Lemma R_file_exception i e σ : R σ (file_exception i e σ).2.
Proof. unfold file_exception. case_match; simpl; solve_R. Qed.

Lemma R_record_probe l r σ σ' : record_probe l r σ = inr σ' -> R σ σ'.
Proof.
  unfold record_probe. intros H.
  destruct (probe_size r); simplify_eq; solve_R.
Qed.

Lemma R_single_attempts fuel l url proxies headers temp_path target_path script n retries σ :
  R σ (single_attempts cfg fuel l url proxies headers temp_path target_path
                       script n retries σ).2.
Proof.
  revert n retries σ. induction fuel as [|fuel IH]; intros n retries σ; simpl.
  - apply R_refl.
  - destruct (retries <=? retry_count cfg); [|apply R_refl].
    set (r := {| req_method := "GET"; req_url := url;
                 req_headers := headers; req_proxies := proxies |}).
    apply (R_trans σ (send r σ)); [apply R_send|].
    destruct (script n) as [e|body fin].
    + destruct (retry_count cfg <? retries + 1); [|apply IH]. simpl. solve_R.
    + pose proof (R_stream_loop l body (create_file temp_path (send r σ))) as Hloop.
      destruct (stream_loop _ _ _) as [stopped σ1]. simpl in Hloop.
      apply (R_trans _ σ1); [eapply R_trans; [|exact Hloop]; solve_R|].
      destruct stopped; [apply R_refl|].
      destruct fin as [e|]; [|simpl; solve_R].
      destruct (retry_count cfg <? retries + 1); [|apply IH]. simpl. solve_R.
Qed.

Lemma R_download_single l proxies headers script σ :
  R σ (_download_single cfg l proxies headers script σ).2.
Proof.
  unfold _download_single.
  destruct (deref σ l) as [d|]; [|apply R_refl].
  destruct (resolve_conflict _ _ _ _) as [[[|tp] σ1]|] eqn:Hres; [| |apply R_refl].
  - by eapply R_resolve_conflict.
  - eapply R_trans; [by eapply R_resolve_conflict|].
    destruct (makedirs _ σ1) as [σ2|] eqn:Hmk; [|apply R_refl].
    eapply R_trans; [by eapply R_makedirs|].
    apply R_single_attempts.
Qed.

Lemma R_chunk_step l k proxies headers script th σ :
  R σ (chunk_step cfg l k proxies headers script th σ).2.
Proof.
  unfold chunk_step, chunk_exception.
  repeat case_match; simplify_eq; simpl; solve_R.
Qed.

Lemma R_step_thread l proxies headers script k ths σ :
  R σ (step_thread cfg l proxies headers script k ths σ).2.
Proof.
  unfold step_thread. destruct (ths !! k) as [th|]; [|apply R_refl].
  pose proof (R_chunk_step l k proxies headers (script k) th σ) as H.
  by destruct (chunk_step _ _ _ _ _ _ _ _).
Qed.

Lemma R_run_sched l proxies headers script sc ths σ :
  R σ (run_sched cfg l proxies headers script sc ths σ).2.
Proof.
  revert ths σ. induction sc as [|[k|op] sc IH]; intros ths σ; simpl.
  - apply R_refl.
  - pose proof (R_step_thread l proxies headers script k ths σ) as H.
    destruct (step_thread _ _ _ _ _ _ _ _) as [ths1 σ1].
    eapply R_trans; [exact H|apply IH].
  - eapply R_trans; [apply R_op|apply IH].
Qed.

Lemma R_finish_thread fuel l proxies headers script k ths σ :
  R σ (finish_thread cfg fuel l proxies headers script k ths σ).2.
Proof.
  revert ths σ. induction fuel as [|fuel IH]; intros ths σ; simpl.
  - apply R_refl.
  - pose proof (R_step_thread l proxies headers script k ths σ) as H.
    destruct (step_thread _ _ _ _ _ _ _ _) as [ths1 σ1].
    eapply R_trans; [exact H|apply IH].
Qed.

Lemma R_join_all l proxies headers script ths σ :
  R σ (join_all cfg l proxies headers script ths σ).2.
Proof.
  unfold join_all. generalize (seq 0 (length ths)) as ks.
  intros ks. revert ths σ.
  induction ks as [|k ks IH]; intros ths σ; simpl; [apply R_refl|].
  pose proof (R_finish_thread (thread_bound cfg (script k)) l proxies headers script k ths σ) as H.
  destruct (finish_thread _ _ _ _ _ _ _ _ _) as [ths1 σ1].
  eapply R_trans; [exact H|apply IH].
Qed.

Lemma R_download_in_chunks l proxies headers script sc σ :
  R σ (_download_in_chunks cfg l proxies headers script sc σ).2.
Proof.
  unfold _download_in_chunks.
  destruct (deref σ l) as [d|]; [|apply R_refl].
  destruct (resolve_conflict _ _ _ _) as [[[|tp] σ1]|] eqn:Hres; [| |apply R_refl].
  - by eapply R_resolve_conflict.
  - eapply R_trans; [by eapply R_resolve_conflict|].
    destruct (makedirs _ σ1) as [σ2|] eqn:Hmk; [|apply R_refl].
    eapply R_trans; [by eapply R_makedirs|].
    destruct (chunk_count cfg =? 0); [apply R_refl|].
    match goal with
    | |- context [run_sched cfg l proxies headers script sc ?ths ?s] =>
        pose proof (R_run_sched l proxies headers script sc ths s) as Hrun;
        destruct (run_sched cfg l proxies headers script sc ths s) as [ths1 σ3]
    end.
    pose proof (R_join_all l proxies headers script ths1 σ3) as Hjoin.
    destruct (join_all _ _ _ _ _ _ _) as [ths2 σ4].
    eapply R_trans; [|eapply R_trans; [exact Hrun|]]; [solve_R|].
    eapply R_trans; [exact Hjoin|].
    case_match; simpl.
    + unfold _post_process_download.
      eapply R_trans; [|case_match; apply R_remove_temp_files]. solve_R.
    + eapply R_trans; [|apply R_remove_temp_files]. solve_R.
Qed.

Lemma R_download_file i env σ : R σ (_download_file cfg i env σ).2.
Proof.
  unfold _download_file.
  destruct (downloads σ !! i) as [l|]; [|apply R_refl].
  destruct (deref σ l) as [d|]; [|apply R_file_exception].
  set (r := {| req_method := "HEAD"; req_url := Download.url d;
               req_headers := _get_headers cfg;
               req_proxies := _get_proxies cfg (Download.privacy_mode d) |}).
  apply (R_trans σ (send r σ)); [apply R_send|].
  destruct (env_head env) as [resp|e]; [|apply R_file_exception].
  destruct (record_probe l resp (send r σ)) as [e|σp] eqn:Hp; [apply R_file_exception|].
  apply (R_trans _ σp); [by apply (R_record_probe l resp)|].
  match goal with
  | |- context [match choose_strategy ?c ?s ?z with _ => _ end] =>
      destruct (choose_strategy c s z)
  end.
  - pose proof (R_download_in_chunks l (_get_proxies cfg (Download.privacy_mode d))
                  (_get_headers cfg) (env_chunk env) (env_sched env) σp) as H.
    destruct (_download_in_chunks _ _ _ _ _ _ _) as [ret σ1]. simpl in H.
    eapply R_trans; [exact H|]. destruct ret; try apply R_refl. apply R_file_exception.
  - pose proof (R_download_single l (_get_proxies cfg (Download.privacy_mode d))
                  (_get_headers cfg) (env_single env) σp) as H.
    destruct (_download_single _ _ _ _ _ _) as [ret σ1]. simpl in H.
    eapply R_trans; [exact H|]. destruct ret; try apply R_refl. apply R_file_exception.
Qed.

End Preservation.

(** ** The frame of the executor *)

Lemma frame_refl σ : frame σ σ.
Proof.
  repeat split; try done.
  - exists []. by rewrite app_nil_r.
  - intros l d Hd. eauto.
Qed.

Lemma frame_trans σ1 σ2 σ3 : frame σ1 σ2 -> frame σ2 σ3 -> frame σ1 σ3.
Proof.
  intros (Hn1 & Ha1 & (q1 & Hq1) & Hr1 & Hh1) (Hn2 & Ha2 & (q2 & Hq2) & Hr2 & Hh2).
  repeat split; try congruence.
  - exists (q1 ++ q2)%list. by rewrite Hq2, Hq1, app_assoc.
  - intros i l Hl. auto.
  - intros l d Hd. destruct (Hh1 l d Hd) as (d' & Hd' & ? & ? & ?).
    destruct (Hh2 l d' Hd') as (d'' & Hd'' & ? & ? & ?).
    exists d''. repeat split; congruence.
Qed.

Lemma frame_same σ σ' :
  next_loc σ' = next_loc σ -> active_workers σ' = active_workers σ ->
  download_queue σ' = download_queue σ -> downloads σ' = downloads σ ->
  heap σ' = heap σ -> frame σ σ'.
Proof.
  intros Hn Ha Hq Hr Hh. repeat split; try done.
  - exists []. by rewrite app_nil_r.
  - intros i l. by rewrite Hr.
  - intros l d Hd. exists d. unfold deref in *. by rewrite Hh.
Qed.

Lemma frame_update l f σ : field_update f -> frame σ (update l f σ).
Proof.
  intros Hf. repeat split; try done.
  - exists []. by rewrite app_nil_r.
  - intros l' d Hd. destruct (decide (l' = l)) as [->|Hne].
    + exists (f d). rewrite deref_update, Hd. destruct (Hf d) as (? & ? & ?). done.
    + exists d. unfold deref, update in *. simpl. by rewrite lookup_alter_ne.
Qed.

Lemma frame_emit s σ : frame σ (emit s σ).
Proof. by apply frame_same. Qed.

Lemma frame_send r σ : frame σ (send r σ).
Proof. by apply frame_same. Qed.

Lemma frame_fs f σ : frame σ (with_fs f σ).
Proof. by apply frame_same. Qed.

Lemma frame_queue_put i σ : frame σ (queue_put i σ).
Proof.
  repeat split; try done.
  - by exists [i].
  - intros l d Hd. eauto.
Qed.

Lemma frame_delete i σ : frame σ (with_downloads (delete i (downloads σ)) σ).
Proof.
  repeat split; try done.
  - exists []. by rewrite app_nil_r.
  - intros j l Hl. simpl in Hl. by apply lookup_delete_Some in Hl as [_ ?].
  - intros l d Hd. eauto.
Qed.

Lemma field_update_set_status s : field_update (Download.set_status s).
Proof. intros d. done. Qed.

Lemma frame_cancel i σ : frame σ (cancel_download i σ).2.
Proof.
  unfold cancel_download. repeat case_match; simpl; try apply frame_refl;
    (eapply frame_trans; [apply frame_update, field_update_set_status|apply frame_emit]).
Qed.

Lemma frame_op op σ : frame σ (apply_op op σ).
Proof.
  destruct op as [i|i|i|i]; simpl.
  - unfold pause_download. repeat case_match; simpl; try apply frame_refl.
    eapply frame_trans; [apply frame_update, field_update_set_status|apply frame_emit].
  - unfold resume_download. repeat case_match; simpl; try apply frame_refl.
    eapply frame_trans; [apply frame_update, field_update_set_status|].
    eapply frame_trans; [apply frame_queue_put|apply frame_emit].
  - apply frame_cancel.
  - unfold delete_download. destruct (downloads σ !! i) as [l|]; simpl; [|apply frame_refl].
    repeat case_match; simpl;
      first [ apply frame_delete
            | eapply frame_trans; [apply frame_cancel|apply frame_delete] ].
Qed.

Lemma frame_download_file (cfg : Config) (i : string) (env : Env) (σ : State) :
  frame σ (_download_file cfg i env σ).2.
Proof.
  apply (R_download_file cfg frame frame_refl frame_trans frame_update
                         frame_emit frame_send frame_fs frame_op).
Qed.

(** X8. A run of [_download_file], whatever the server sends and whatever
    the other threads call meanwhile, allocates nothing, adds no id to the
    registry, leaves the count of active workers alone, only appends to the
    queue, and never changes the [id], the [target_dir] or the
    [privacy_mode] of a download. *)
Theorem download_file_frame (cfg : Config) (i : string) (env : Env) (σ : State) :
  frame σ (_download_file cfg i env σ).2.
Proof. apply frame_download_file. Qed.

(** ** The registry in every reachable state *)

Lemma registry_ok_frame σ σ' : registry_ok σ -> frame σ σ' -> registry_ok σ'.
Proof.
  intros Hok (Hn & _ & _ & Hr & Hh) i l Hl.
  destruct (Hok i l (Hr i l Hl)) as (Hlt & d & Hd & Hid).
  split; [lia|]. destruct (Hh l d Hd) as (d' & Hd' & Hid' & _).
  exists d'. split; [done|congruence].
Qed.

Lemma registry_ok_same σ σ' :
  next_loc σ' = next_loc σ -> downloads σ' = downloads σ -> heap σ' = heap σ ->
  registry_ok σ -> registry_ok σ'.
Proof.
  intros Hn Hr Hh Hok i l Hl. rewrite Hr in Hl. destruct (Hok i l Hl) as (Hlt & d & Hd & Hid).
  split; [lia|]. exists d. unfold deref in *. by rewrite Hh.
Qed.

Lemma registry_ok_add uid url target_dir filename url_path privacy_mode σ :
  registry_ok σ ->
  registry_ok (add_download uid url target_dir filename url_path privacy_mode σ).2.
Proof.
  intros Hok i l Hl. unfold add_download in *. simpl in *.
  unfold deref. simpl.
  destruct (decide (i = uid)) as [->|Hne].
  - rewrite lookup_insert_eq in Hl. injection Hl as <-.
    split; [lia|]. rewrite lookup_insert_eq. eauto.
  - rewrite lookup_insert_ne in Hl by done.
    destruct (Hok i l Hl) as (Hlt & d & Hd & Hid).
    split; [lia|]. exists d. rewrite lookup_insert_ne by lia. done.
Qed.

Lemma registry_ok_clear σ : registry_ok σ -> registry_ok (clear_completed σ).
Proof.
  intros Hok i l Hl. unfold clear_completed in Hl. simpl in Hl.
  apply lookup_foldr_delete_Some in Hl as [_ Hl]. exact (Hok i l Hl).
Qed.

Lemma registry_ok_worker_take σ : registry_ok σ -> registry_ok (worker_take σ).2.
Proof.
  intros Hok. unfold worker_take.
  destruct (download_queue σ) as [|i q]; [done|].
  assert (Hq : registry_ok (with_queue q σ)) by (by apply (registry_ok_same σ)).
  destruct (downloads (with_queue q σ) !! i) as [l|]; [|done].
  repeat case_match; simpl; try done;
    (eapply (registry_ok_same (update l (Download.set_status Downloading) (with_queue q σ)));
     [done..|]);
    (eapply registry_ok_frame; [exact Hq|apply frame_update, field_update_set_status]).
Qed.

Lemma registry_ok_worker_commit i r σ : registry_ok σ -> registry_ok (worker_commit i r σ).
Proof.
  intros Hok. unfold worker_commit.
  match goal with
  | |- registry_ok (with_active _ ?s) =>
      assert (Hs : registry_ok s); [|by apply (registry_ok_same s)]
  end.
  repeat case_match; try done;
    (eapply registry_ok_frame; [exact Hok|]);
    (eapply frame_trans; [|apply frame_emit]);
    apply frame_update; intros d; done.
Qed.

Lemma registry_ok_act cfg a σ : registry_ok σ -> registry_ok (act cfg a σ).
Proof.
  intros Hok. destruct a as [uid url target_dir filename url_path privacy_mode|op| |env]; simpl.
  - by apply registry_ok_add.
  - eapply registry_ok_frame; [exact Hok|apply frame_op].
  - by apply registry_ok_clear.
  - unfold worker_iteration.
    pose proof (registry_ok_worker_take σ Hok) as Htake.
    destruct (worker_take σ) as [[i|] σ1]; simpl in Htake; [|done].
    pose proof (frame_download_file cfg i env σ1) as Hframe.
    destruct (_download_file cfg i env σ1) as [ret σ2]. simpl in Hframe.
    apply registry_ok_worker_commit. by eapply registry_ok_frame.
Qed.

(** X9. In every state the manager can reach by submitting downloads,
    calling pause, resume, cancel and delete, clearing the completed
    downloads and running worker iterations, every id of the registry refers
    to a download object that exists and carries that id. *)
Theorem registry_ok_reachable (cfg : Config) (actions : list Action) :
  registry_ok (run cfg actions).
Proof.
  unfold run. induction actions as [|a actions IH] using rev_ind.
  - intros i l Hl. simpl in Hl. by rewrite lookup_empty in Hl.
  - rewrite foldl_snoc. by apply registry_ok_act.
Qed.

(** ** The count of active workers *)

Lemma active_workers_worker_take σ :
  active_workers (worker_take σ).2 =
    match (worker_take σ).1 with
    | Some _ => active_workers σ + 1
    | None => active_workers σ
    end.
Proof. unfold worker_take. repeat case_match; simplify_eq; simpl in *; try done. Qed.

Lemma active_workers_worker_commit i r σ :
  active_workers (worker_commit i r σ) = active_workers σ - 1.
Proof. unfold worker_commit. repeat case_match; reflexivity. Qed.

Lemma active_workers_worker_iteration cfg env σ :
  active_workers (worker_iteration cfg env σ) = active_workers σ.
Proof.
  unfold worker_iteration. pose proof (active_workers_worker_take σ) as Htake.
  destruct (worker_take σ) as [[i|] σ1]; simpl in Htake; [|done].
  pose proof (frame_download_file cfg i env σ1) as (_ & Hframe & _).
  destruct (_download_file cfg i env σ1) as [ret σ2]. simpl in Hframe.
  rewrite active_workers_worker_commit. lia.
Qed.

Lemma active_workers_act cfg a σ : active_workers (act cfg a σ) = active_workers σ.
Proof.
  destruct a as [uid url target_dir filename url_path privacy_mode|op| |env]; simpl.
  - reflexivity.
  - by destruct (frame_op op σ) as (_ & ? & _).
  - reflexivity.
  - apply active_workers_worker_iteration.
Qed.

(** X10. A worker iteration takes the count of active workers up by one
    when it starts a download and down by one when it commits the result,
    and nothing else touches the count: after any sequence of submissions,
    interface calls, clearings and completed worker iterations the count is
    zero again. *)
Theorem active_workers_balanced (cfg : Config) (actions : list Action) :
  active_workers (run cfg actions) = 0.
Proof.
  unfold run. induction actions as [|a actions IH] using rev_ind; [done|].
  by rewrite foldl_snoc, active_workers_act.
Qed.

(** ** Clearing the completed downloads *)

Lemma clear_completed_lookup (σ : State) (i : string) :
  downloads (clear_completed σ) !! i =
    match downloads σ !! i with
    | Some l => if bool_decide (status_at σ l = Some Completed) then None else Some l
    | None => None
    end.
Proof.
  unfold clear_completed. simpl.
  set (ks := omap _ _).
  assert (Hks : i ∈ ks <-> exists l, downloads σ !! i = Some l /\
                                      status_at σ l = Some Completed).
  { unfold ks. rewrite list_elem_of_omap. split.
    - intros ([j l] & Hin & Hf). apply elem_of_map_to_list in Hin. simpl in Hf.
      exists l. destruct (status_at σ l) as [[]|] eqn:Hs; simplify_eq. done.
    - intros (l & Hl & Hs). exists (i, l). split; [by apply elem_of_map_to_list|].
      simpl. by rewrite Hs. }
  destruct (downloads σ !! i) as [l|] eqn:Hl.
  - case_bool_decide as Hs.
    + apply lookup_foldr_delete. apply Hks. eauto.
    + rewrite lookup_foldr_delete_not_elem_of; [done|].
      intros (l' & Hl' & Hs')%Hks. congruence.
  - destruct (decide (i ∈ ks)) as [Hin|Hout].
    + by apply lookup_foldr_delete.
    + by rewrite lookup_foldr_delete_not_elem_of.
Qed.

(** X11. [clear_completed] removes from the registry exactly the ids whose
    download is [Completed]: such an id is no longer found, every other id
    is found as before, and no download object, queue entry or file is
    touched. *)
Theorem clear_completed_removes_completed (σ : State) (i : string) :
  get_download i (clear_completed σ) =
    match get_download i σ with
    | Some d => if bool_decide (Download.status d = Completed) then None else Some d
    | None => None
    end /\
  heap (clear_completed σ) = heap σ /\
  download_queue (clear_completed σ) = download_queue σ /\
  fs (clear_completed σ) = fs σ.
Proof.
  split; [|done]. unfold get_download. rewrite clear_completed_lookup.
  destruct (downloads σ !! i) as [l|]; simpl; [|done].
  unfold status_at. destruct (deref σ l) as [d|] eqn:Hd; simpl.
  - destruct (decide (Download.status d = Completed)) as [Hc|Hc].
    + rewrite !bool_decide_eq_true_2 by congruence. done.
    + rewrite !bool_decide_eq_false_2 by congruence. simpl. exact Hd.
  - exact Hd.
Qed.

(** X12. [clear_completed] is idempotent: a second call changes nothing. *)
Theorem clear_completed_idempotent (σ : State) :
  clear_completed (clear_completed σ) = clear_completed σ.
Proof.
  assert (Hm : downloads (clear_completed (clear_completed σ)) = downloads (clear_completed σ)).
  { apply map_eq. intros i. rewrite !clear_completed_lookup.
    destruct (downloads σ !! i) as [l|]; [|done].
    change (status_at (clear_completed σ) l) with (status_at σ l).
    case_bool_decide as Hs; [done|]. by rewrite bool_decide_eq_false_2. }
  change (clear_completed (clear_completed σ))
    with (with_downloads (downloads (clear_completed (clear_completed σ)))
                         (clear_completed σ)).
  rewrite Hm. reflexivity.
Qed.

(** ** Submitting and listing downloads *)

(** X13. [add_download] returns the id it was given; the id is then
    registered with a download that is [Waiting], of unknown size, with no
    byte downloaded, no error and the requested privacy mode; the id is put
    at the end of the queue and [download_added] is emitted; and no other id
    of the registry is affected. *)
Theorem add_download_registers (uid url target_dir : string) (filename : option string)
    (url_path privacy_mode : string) (σ : State) :
  registry_ok σ ->
  let r := add_download uid url target_dir filename url_path privacy_mode σ in
  r.1 = uid /\
  (exists d, get_download uid r.2 = Some d /\
     Download.id d = uid /\ Download.url d = url /\
     Download.target_dir d = target_dir /\
     Download.status d = Waiting /\ Download.size d = -1 /\
     Download.downloaded d = 0 /\ Download.error d = None /\
     Download.privacy_mode d = privacy_mode /\ Download.chunks d = []) /\
  download_queue r.2 = (download_queue σ ++ [uid])%list /\
  signals r.2 = (signals σ ++ [download_added uid])%list /\
  (forall j, j <> uid -> get_download j r.2 = get_download j σ).
Proof.
  intros Hok. simpl. split; [done|]. split.
  - eexists. split.
    + unfold get_download, add_download, deref. simpl.
      rewrite lookup_insert_eq. simpl. by rewrite lookup_insert_eq.
    + repeat split; reflexivity.
  - split; [done|]. split; [done|].
    intros j Hne. unfold get_download, add_download, deref. simpl.
    rewrite lookup_insert_ne by done.
    destruct (downloads σ !! j) as [l|] eqn:Hl; simpl; [|done].
    destruct (Hok j l Hl) as [Hlt _]. rewrite lookup_insert_ne by lia. done.
Qed.

Lemma registry_ok_initial : registry_ok initial_state.
Proof. intros i l Hl. simpl in Hl. by rewrite lookup_empty in Hl. Qed.

Lemma add_download_registers_witness :
  (Download.status <$>
     get_download "u1"
       (add_download "u1" "http://host/f.bin" "/dl" (Some "f.bin") "/f.bin" "Normal"
                     initial_state).2) = Some Waiting.
Proof.
  destruct (add_download_registers "u1" "http://host/f.bin" "/dl" (Some "f.bin") "/f.bin"
              "Normal" initial_state registry_ok_initial)
    as (_ & (d & Hd & _ & _ & _ & Hs & _) & _).
  rewrite Hd. simpl. by rewrite Hs.
Defined.

(** X14. [get_all_downloads] lists exactly the downloads of the registry: a
    download is in the list if and only if some id is registered with it. *)
Theorem get_all_downloads_registered (σ : State) (d : Download.t) :
  d ∈ get_all_downloads σ <-> exists i, get_download i σ = Some d.
Proof.
  unfold get_all_downloads, get_download. rewrite list_elem_of_omap. split.
  - intros ([i l] & Hin & Hd). apply elem_of_map_to_list in Hin.
    exists i. rewrite Hin. exact Hd.
  - intros (i & Hi). destruct (downloads σ !! i) as [l|] eqn:Hl; [|discriminate].
    exists (i, l). split; [by apply elem_of_map_to_list|exact Hi].
Qed.

(** ** The worker and the queue *)

(** X15. A worker that takes from the queue an id that is no longer
    registered, or whose download is [Canceled], [Completed] or [Failed],
    drops it: nothing but the queue changes and no download is started. *)
Theorem worker_take_skips (i : string) (q : list string) (σ : State) :
  download_queue σ = i :: q ->
  (downloads σ !! i = None \/
   exists l s, downloads σ !! i = Some l /\ status_at σ l = Some s /\ terminal s = true) ->
  worker_take σ = (None, with_queue q σ).
Proof.
  intros Hq Hskip. unfold worker_take. rewrite Hq.
  change (downloads (with_queue q σ)) with (downloads σ).
  destruct Hskip as [->|(l & s & -> & Hs & Hterm)]; [done|].
  change (status_at (with_queue q σ) l) with (status_at σ l). rewrite Hs.
  by destruct s.
Qed.

Lemma worker_take_skips_witness :
  worker_take (delete_download "u1" (Scenario.submitted "Normal")).2 =
    (None, with_queue [] (delete_download "u1" (Scenario.submitted "Normal")).2).
Proof.
  apply (worker_take_skips "u1" [] (delete_download "u1" (Scenario.submitted "Normal")).2).
  - reflexivity.
  - left. reflexivity.
Defined.



(** ** The single-stream strategy: files and retries *)

Lemma fs_apply_op op σ : fs (apply_op op σ) = fs σ.
Proof.
  destruct op; simpl;
    unfold pause_download, resume_download, delete_download, cancel_download;
    repeat case_match; reflexivity.
Qed.

Lemma fs_stream_loop l body σ : fs (stream_loop l body σ).2 = fs σ.
Proof.
  revert σ. induction body as [|[n|op] body IH]; intros σ; simpl.
  - done.
  - repeat case_match; simpl; try done; by rewrite IH.
  - by rewrite IH, fs_apply_op.
Qed.


Lemma part_suffix_differs (p : string) : p ++ ".part" <> p.
Proof.
  intros H. apply (f_equal String.length) in H.
  rewrite string_length_app in H. simpl in H. lia.
Qed.

Section SingleAttempts.

Variable cfg : Config.
Variables (l : loc) (url : string) (proxies : gmap string string)
          (headers : gmap string value) (temp_path target_path : string)
          (script : nat -> Attempt).

Let attempts fuel n retries σ :=
  single_attempts cfg fuel l url proxies headers temp_path target_path script n retries σ.

(** at most one GET per round of the retry loop *)
Lemma single_attempts_requests fuel n retries σ :
  exists k, (k <= fuel)%nat /\
    net (attempts fuel n retries σ).2
    = (net σ ++ replicate k (get_request url headers proxies))%list.
Proof.
  unfold attempts. revert n retries σ.
  induction fuel as [|fuel IH]; intros n retries σ; simpl.
  - exists 0%nat. split; [lia|]. by rewrite app_nil_r.
  - destruct (retries <=? retry_count cfg);
      [|exists 0%nat; split; [lia|by rewrite app_nil_r]].
    fold (get_request url headers proxies).
    set (σ0 := send (get_request url headers proxies) σ).
    assert (Hrec : forall σ1 retries', net σ1 = net σ0 ->
              exists k, (k <= S fuel)%nat /\
                net (single_attempts cfg fuel l url proxies headers temp_path
                       target_path script (S n) retries' σ1).2
                = (net σ ++ replicate k (get_request url headers proxies))%list).
    { intros σ1 retries' Hnet.
      destruct (IH (S n) retries' σ1) as (k & Hk & Hnet').
      exists (S k). split; [lia|]. rewrite Hnet', Hnet. simpl.
      by rewrite <- app_assoc. }
    assert (Hone : forall σ1, net σ1 = net σ0 ->
              exists k, (k <= S fuel)%nat /\
                net σ1 = (net σ ++ replicate k (get_request url headers proxies))%list).
    { intros σ1 Hnet. exists 1%nat. split; [lia|]. by rewrite Hnet. }
    destruct (script n) as [e|body fin].
    + destruct (retry_count cfg <? retries + 1); [|by apply Hrec].
      simpl. apply Hone. by case_match.
    + pose proof (net_stream_loop l body (create_file temp_path σ0)) as Hloop.
      destruct (stream_loop _ _ _) as [stopped σ1]. simpl in Hloop.
      destruct stopped; [by apply Hone|].
      destruct fin as [e|]; [|simpl; apply Hone; by rewrite net_post_process].
      destruct (retry_count cfg <? retries + 1); [|by apply Hrec].
      simpl. apply Hone. by case_match.
Qed.

(** after a success the target exists and the part file is gone *)
Lemma single_attempts_success fuel n retries σ :
  temp_path <> target_path ->
  (attempts fuel n retries σ).1 = RTrue ->
  target_path ∈ fs (attempts fuel n retries σ).2 /\
  temp_path ∉ fs (attempts fuel n retries σ).2.
Proof.
  intros Hne. unfold attempts. revert n retries σ.
  induction fuel as [|fuel IH]; intros n retries σ; simpl; [discriminate|].
  destruct (retries <=? retry_count cfg); [|discriminate].
  destruct (script n) as [e|body fin].
  - destruct (retry_count cfg <? retries + 1); [discriminate|apply IH].
  - destruct (stream_loop _ _ _) as [stopped σ1]. destruct stopped; [discriminate|].
    destruct fin as [e|].
    + destruct (retry_count cfg <? retries + 1); [discriminate|apply IH].
    + intros _. simpl. unfold _post_process_download.
      assert (Hfs : forall s, fs (if auto_extract cfg && _is_archive target_path
                                  then s else s) = fs s) by (intros; by case_match).
      rewrite Hfs. simpl. split.
      * by apply elem_of_union_l, elem_of_singleton.
      * intros [Ht|Hd]%elem_of_union.
        -- by apply elem_of_singleton in Ht.
        -- apply elem_of_difference in Hd as [_ Hd]. by apply Hd, elem_of_singleton.
Qed.


End SingleAttempts.

Lemma resolve_conflict_absent cfg l target_path σ :
  path_exists target_path σ = false ->
  resolve_conflict cfg l target_path σ = Some (Proceed target_path, σ).
Proof. intros H. unfold resolve_conflict. by rewrite H. Qed.

Lemma fs_resolve_conflict cfg l target_path σ c σ' :
  resolve_conflict cfg l target_path σ = Some (c, σ') -> fs σ' = fs σ.
Proof.
  unfold resolve_conflict. intros H. repeat case_match; simplify_eq; reflexivity.
Qed.

(** X17. [_download_single] issues at most [retry_count + 1] GET requests,
    all for the URL of the download with the headers and proxies it was
    given, and no other request. *)
Theorem download_single_retry_bound (cfg : Config) (l : loc) (d : Download.t)
    (proxies : gmap string string) (headers : gmap string value)
    (script : nat -> Attempt) (σ : State) :
  deref σ l = Some d ->
  exists k, (k <= Z.to_nat (retry_count cfg + 1))%nat /\
    net (_download_single cfg l proxies headers script σ).2
    = (net σ ++ replicate k (get_request (Download.url d) headers proxies))%list.
Proof.
  intros Hd. unfold _download_single. rewrite Hd.
  assert (Hnone : forall σ', net σ' = net σ ->
            exists k, (k <= Z.to_nat (retry_count cfg + 1))%nat /\
              net σ' = (net σ ++ replicate k (get_request (Download.url d) headers proxies))%list).
  { intros σ' Hnet. exists 0%nat. split; [lia|]. by rewrite Hnet, app_nil_r. }
  destruct (resolve_conflict _ _ _ _) as [[[|tp] σ1]|] eqn:Hres; simpl; [| |by apply Hnone].
  - apply Hnone. by eapply net_resolve_conflict.
  - destruct (makedirs _ σ1) as [σ2|] eqn:Hmk; simpl.
    + destruct (single_attempts_requests cfg l (Download.url d) proxies headers
                  (Download.get_target_path d ++ ".part") tp script
                  (Z.to_nat (retry_count cfg + 1)) 0%nat 0 σ2) as (k & Hk & Hnet).
      exists k. split; [done|]. rewrite Hnet.
      by rewrite (net_makedirs _ _ _ Hmk), (net_resolve_conflict _ _ _ _ _ _ Hres).
    + apply Hnone. by eapply net_resolve_conflict.
Qed.

Lemma download_single_retry_bound_witness :
  exists k, (k <= Z.to_nat (retry_count Scenario.cfg0 + 1))%nat /\
    net (_download_single Scenario.cfg0 0%nat ∅ ∅ (fun _ => GetRaises "timeout")
           Scenario.taken).2
    = (net Scenario.taken
         ++ replicate k (get_request "http://host/f.bin" ∅ ∅))%list.
Proof.
  apply (download_single_retry_bound Scenario.cfg0 0%nat
           (Download.set_status Downloading
              (Download.init "u1" "http://host/f.bin" "/dl" (Some "f.bin") "/f.bin"))
           ∅ ∅ (fun _ => GetRaises "timeout") Scenario.taken).
  vm_compute. reflexivity.
Defined.

(** X18. When [_download_single] returns [True] for a target that did not
    exist before, the target file exists and the part file does not. *)
Theorem download_single_success_files (cfg : Config) (l : loc) (d : Download.t)
    (proxies : gmap string string) (headers : gmap string value)
    (script : nat -> Attempt) (σ : State) :
  deref σ l = Some d ->
  path_exists (Download.get_target_path d) σ = false ->
  (_download_single cfg l proxies headers script σ).1 = RTrue ->
  Download.get_target_path d ∈ fs (_download_single cfg l proxies headers script σ).2 /\
  Download.get_target_path d ++ ".part"
    ∉ fs (_download_single cfg l proxies headers script σ).2.
Proof.
  intros Hd Habsent. unfold _download_single.
  rewrite Hd, (resolve_conflict_absent _ _ _ _ Habsent).
  destruct (makedirs _ σ) as [σ2|]; [|discriminate].
  apply single_attempts_success. apply part_suffix_differs.
Qed.

Lemma download_single_success_files_witness :
  "/dl/f.bin" ∈ fs (_download_single Scenario.cfg0 0%nat ∅ ∅
                      (fun _ => GetStream [SData 100] None) Scenario.taken).2 /\
  "/dl/f.bin.part" ∉ fs (_download_single Scenario.cfg0 0%nat ∅ ∅
                           (fun _ => GetStream [SData 100] None) Scenario.taken).2.
Proof.
  apply (download_single_success_files Scenario.cfg0 0%nat
           (Download.set_status Downloading
              (Download.init "u1" "http://host/f.bin" "/dl" (Some "f.bin") "/f.bin"))
           ∅ ∅ (fun _ => GetStream [SData 100] None) Scenario.taken);
    vm_compute; reflexivity.
Defined.







(** ** The chunked strategy: part files, ranges and counters *)

Lemma prepare_chunks_temp_files (cfg : Config) (target_path : string) (size : Z) :
  Chunk.temp_file <$> prepare_chunks cfg target_path size
  = (fun i : nat => target_path ++ ".part" ++ pretty (Z.of_nat i))
      <$> seq 0 (Z.to_nat (chunk_count cfg)).
Proof.
  unfold prepare_chunks. rewrite <- list_fmap_compose. reflexivity.
Qed.

Lemma string_prefix_app (s t : string) : String.prefix s (s ++ t) = true.
Proof.
  induction s as [|a s IH]; [by destruct t|].
  rewrite string_app_cons. simpl. by destruct (ascii_dec a a).
Qed.

(** X21. The chunks built for a download have pairwise distinct part files,
    and each of them is named after the target: the target path, then
    [.part], then the index of the chunk. *)
Theorem chunk_part_files_distinct (cfg : Config) (target_path : string) (size : Z) :
  NoDup (Chunk.temp_file <$> prepare_chunks cfg target_path size) /\
  Forall (fun c => is_part_file target_path (Chunk.temp_file c) = true)
         (prepare_chunks cfg target_path size).
Proof.
  split.
  - rewrite prepare_chunks_temp_files. apply NoDup_fmap_2_strong; [|apply NoDup_seq].
    intros i j _ _ H.
    apply String.app_inj in H. apply String.app_inj in H.
    apply (inj pretty) in H. lia.
  - unfold prepare_chunks. apply Forall_fmap, Forall_forall. intros i _. simpl.
    unfold is_part_file, Str.startswith.
    replace (target_path ++ ".part" ++ pretty (Z.of_nat i))
      with ((target_path ++ ".part") ++ pretty (Z.of_nat i)).
    + apply string_prefix_app.
    + clear. induction target_path as [|a s IH]; [reflexivity|].
      rewrite !string_app_cons. by rewrite IH.
Qed.

Lemma sum_constant {A} (g : A -> Z) (q : Z) (xs : list A) :
  Forall (fun x => g x = q) xs ->
  foldr Z.add 0 (map g xs) = Z.of_nat (length xs) * q.
Proof.
  induction 1 as [|x xs Hx _ IH]; [reflexivity|].
  cbn [map foldr length]. rewrite IH, Hx. lia.
Qed.

(** X22. For a chunk count above zero, the ranges of the chunks add up to
    the size of the file: the widths of the ranges (both ends included) sum
    to [size]. *)
Theorem chunk_widths_sum (cfg : Config) (target_path : string) (size : Z) :
  0 < chunk_count cfg ->
  foldr Z.add 0 (map chunk_width (prepare_chunks cfg target_path size)) = size.
Proof.
  intros Hn. unfold prepare_chunks.
  set (n := chunk_count cfg) in *. set (q := size `div` n).
  rewrite map_map.
  replace (Z.to_nat n) with (Z.to_nat (n - 1) + 1)%nat by lia.
  rewrite seq_app, map_app, foldr_app. simpl.
  rewrite Z2Nat.id by lia. rewrite Z.ltb_irrefl.
  unfold chunk_width at 1. simpl.
  assert (Hrest : forall acc (xs : list nat) (g : nat -> Z),
            foldr Z.add acc (map g xs) = foldr Z.add 0 (map g xs) + acc).
  { intros acc xs g. induction xs as [|x xs IH]; simpl; lia. }
  rewrite Hrest. rewrite (sum_constant _ q).
  - rewrite length_seq, Z2Nat.id by lia. lia.
  - apply Forall_forall. intros i Hi. apply elem_of_seq in Hi.
    unfold chunk_width. simpl.
    destruct (Z.ltb_spec (Z.of_nat i) (n - 1)); lia.
Qed.

Lemma chunk_widths_sum_witness :
  foldr Z.add 0 (map chunk_width (prepare_chunks Scenario.cfg0 "/dl/f.bin" 100003)) = 100003.
Proof. apply (chunk_widths_sum Scenario.cfg0 "/dl/f.bin" 100003). reflexivity. Defined.

Lemma obs_update_status {A} (obs : Download.t -> A) σ l l' s :
  (forall s d, obs (Download.set_status s d) = obs d) ->
  obs <$> deref (update l' (Download.set_status s) σ) l = obs <$> deref σ l.
Proof.
  intros Hobs. unfold deref, update. simpl. destruct (decide (l = l')) as [->|Hne].
  - rewrite lookup_alter_eq. destruct (heap σ !! l'); simpl; [|done]. by rewrite Hobs.
  - by rewrite lookup_alter_ne.
Qed.

(** the calls of the public interface assign no field but [status] *)
Lemma obs_apply_op {A} (obs : Download.t -> A) op σ l :
  (forall s d, obs (Download.set_status s d) = obs d) ->
  obs <$> deref (apply_op op σ) l = obs <$> deref σ l.
Proof.
  intros Hobs.
  destruct op as [i|i|i|i]; simpl;
    unfold pause_download, resume_download, delete_download, cancel_download;
    repeat case_match; simpl; try reflexivity;
    repeat first
      [ progress change (deref (emit ?s ?x) l) with (deref x l)
      | progress change (deref (with_downloads ?m ?x) l) with (deref x l)
      | progress change (deref (queue_put ?q ?x) l) with (deref x l)
      | rewrite (obs_update_status obs) by exact Hobs ];
    reflexivity.
Qed.

Section Counters.

Variable cfg : Config.
Variable l : loc.

Lemma counter_same σ σ' : heap σ' = heap σ -> counter_is_sum l σ -> counter_is_sum l σ'.
Proof. intros Hh Hc d Hd. apply Hc. unfold deref in *. by rewrite <- Hh. Qed.

Lemma counter_apply_op op σ : counter_is_sum l σ -> counter_is_sum l (apply_op op σ).
Proof.
  intros Hc d' Hd'.
  pose proof (obs_apply_op (fun d => (Download.downloaded d, Download.chunks d)) op σ l
                (fun _ _ => eq_refl)) as Hobs.
  rewrite Hd' in Hobs. simpl in Hobs.
  destruct (deref σ l) as [d|] eqn:Hd; [|discriminate].
  simpl in Hobs. injection Hobs as -> ->. by apply Hc.
Qed.

Lemma chunks_downloaded_alter f k (chunks : list Chunk.t) :
  (forall c, Chunk.downloaded (f c) = Chunk.downloaded c) ->
  chunks_downloaded (alter f k chunks) = chunks_downloaded chunks.
Proof.
  intros Hf. unfold chunks_downloaded. f_equal.
  revert k. induction chunks as [|c chunks IH]; intros [|k]; simpl; try done.
  - by rewrite Hf.
  - f_equal. apply IH.
Qed.

Lemma counter_update_chunk l' k f σ :
  (forall c, Chunk.downloaded (f c) = Chunk.downloaded c) ->
  counter_is_sum l σ -> counter_is_sum l (update_chunk l' k f σ).
Proof.
  intros Hf Hc d' Hd'. unfold update_chunk in Hd'.
  destruct (decide (l = l')) as [<-|Hne].
  - rewrite deref_update in Hd'. destruct (deref σ l) as [d|] eqn:Hd; [|discriminate].
    simpl in Hd'. injection Hd' as <-. simpl.
    rewrite chunks_downloaded_alter by done. by apply Hc.
  - apply Hc. unfold deref, update in *. simpl in Hd'. by rewrite lookup_alter_ne in Hd'.
Qed.

(** after [download.downloaded = sum(...)] the counter is the sum *)
Lemma counter_recount σ :
  counter_is_sum l
    (update l (fun d => Download.set_downloaded
                          (foldr Z.add 0 (map Chunk.downloaded (Download.chunks d))) d) σ).
Proof.
  intros d' Hd'. rewrite deref_update in Hd'.
  destruct (deref σ l) as [d|]; [|discriminate]. simpl in Hd'. by injection Hd' as <-.
Qed.

Lemma counter_chunk_step k proxies headers script th σ :
  counter_is_sum l σ ->
  counter_is_sum l (chunk_step cfg l k proxies headers script th σ).2.
Proof.
  intros Hc. unfold chunk_step, chunk_exception.
  repeat case_match; simplify_eq; simpl; try done;
    repeat first
      [ assumption
      | apply counter_recount
      | apply counter_update_chunk; [intros; reflexivity|]
      | match goal with
        | |- counter_is_sum l (emit ?s ?x) => apply (counter_same x); [reflexivity|]
        | |- counter_is_sum l (send ?r ?x) => apply (counter_same x); [reflexivity|]
        | |- counter_is_sum l (create_file ?p ?x) => apply (counter_same x); [reflexivity|]
        end ].
Qed.

Lemma counter_step_thread proxies headers script k ths σ :
  counter_is_sum l σ ->
  counter_is_sum l (step_thread cfg l proxies headers script k ths σ).2.
Proof.
  intros Hc. unfold step_thread. destruct (ths !! k) as [th|]; [|done].
  pose proof (counter_chunk_step k proxies headers (script k) th σ Hc) as H.
  by destruct (chunk_step _ _ _ _ _ _ _ _).
Qed.

Lemma counter_run_sched proxies headers script sc ths σ :
  counter_is_sum l σ ->
  counter_is_sum l (run_sched cfg l proxies headers script sc ths σ).2.
Proof.
  revert ths σ. induction sc as [|[k|op] sc IH]; intros ths σ Hc; simpl.
  - done.
  - pose proof (counter_step_thread proxies headers script k ths σ Hc) as H.
    destruct (step_thread _ _ _ _ _ _ _ _) as [ths1 σ1]. by apply IH.
  - by apply IH, counter_apply_op.
Qed.

Lemma counter_finish_thread fuel proxies headers script k ths σ :
  counter_is_sum l σ ->
  counter_is_sum l (finish_thread cfg fuel l proxies headers script k ths σ).2.
Proof.
  revert ths σ. induction fuel as [|fuel IH]; intros ths σ Hc; simpl; [done|].
  pose proof (counter_step_thread proxies headers script k ths σ Hc) as H.
  destruct (step_thread _ _ _ _ _ _ _ _) as [ths1 σ1]. by apply IH.
Qed.

Lemma counter_join_all proxies headers script ths σ :
  counter_is_sum l σ ->
  counter_is_sum l (join_all cfg l proxies headers script ths σ).2.
Proof.
  unfold join_all. generalize (seq 0 (length ths)) as ks.
  intros ks. revert ths σ.
  induction ks as [|k ks IH]; intros ths σ Hc; simpl; [done|].
  pose proof (counter_finish_thread (thread_bound cfg (script k)) proxies headers script
                k ths σ Hc) as H.
  destruct (finish_thread _ _ _ _ _ _ _ _ _) as [ths1 σ1]. by apply IH.
Qed.

Lemma prepare_chunks_downloaded target_path size :
  chunks_downloaded (prepare_chunks cfg target_path size) = 0.
Proof.
  unfold chunks_downloaded, prepare_chunks. rewrite map_map. simpl.
  induction (seq 0 (Z.to_nat (chunk_count cfg))) as [|i xs IH]; simpl; [done|]. by rewrite IH.
Qed.

Lemma counter_download_in_chunks proxies headers script sc σ d :
  deref σ l = Some d ->
  Download.downloaded d = 0 ->
  Download.chunks d = [] ->
  counter_is_sum l (_download_in_chunks cfg l proxies headers script sc σ).2.
Proof.
  intros Hd Hzero Hnil.
  assert (Hc : counter_is_sum l σ).
  { intros d' Hd'. rewrite Hd in Hd'. injection Hd' as <-. by rewrite Hzero, Hnil. }
  unfold _download_in_chunks. rewrite Hd.
  destruct (resolve_conflict _ _ _ _) as [[[|tp] σ1]|] eqn:Hres; simpl; try done.
  - unfold resolve_conflict in Hres. repeat case_match; simplify_eq; done.
  - assert (Hd1 : exists d1, deref σ1 l = Some d1 /\ Download.downloaded d1 = 0).
    { unfold resolve_conflict in Hres. repeat case_match; simplify_eq; eauto.
      eexists. rewrite deref_update, Hd. simpl. eauto. }
    destruct Hd1 as (d1 & Hd1 & Hzero1).
    destruct (makedirs _ σ1) as [σ2|] eqn:Hmk; simpl.
    2:{ unfold resolve_conflict in Hres. repeat case_match; simplify_eq; try done.
        intros d' Hd'. rewrite deref_update, Hd in Hd'. injection Hd' as <-.
        simpl. by rewrite Hzero, Hnil. }
    assert (Hd2 : deref σ2 l = Some d1).
    { unfold makedirs in Hmk. case_match; simplify_eq. exact Hd1. }
    destruct (chunk_count cfg =? 0); simpl.
    { intros d' Hd'. rewrite Hd2 in Hd'. injection Hd' as <-.
      unfold resolve_conflict in Hres. repeat case_match; simplify_eq;
        try (by rewrite Hzero, Hnil).
      rewrite deref_update, Hd in Hd1. injection Hd1 as <-. simpl.
      by rewrite Hzero, Hnil. }
    set (chunks := prepare_chunks cfg tp (Download.size d)).
    assert (Hc3 : counter_is_sum l (update l (Download.set_chunks chunks) σ2)).
    { intros d' Hd'. rewrite deref_update, Hd2 in Hd'. injection Hd' as <-. simpl.
      unfold chunks. by rewrite prepare_chunks_downloaded. }
    match goal with
    | |- context [run_sched cfg l proxies headers script sc ?ths ?s] =>
        pose proof (counter_run_sched proxies headers script sc ths s Hc3) as Hrun;
        destruct (run_sched cfg l proxies headers script sc ths s) as [ths1 σ3]
    end.
    pose proof (counter_join_all proxies headers script ths1 σ3 Hrun) as Hjoin.
    destruct (join_all _ _ _ _ _ _ _) as [ths2 σ4]. simpl in Hjoin.
    case_match; simpl.
    + eapply counter_same; [|exact Hjoin].
      unfold _post_process_download. case_match; by rewrite remove_temp_files_heap.
    + intros d' Hd'. unfold deref in Hd'. rewrite remove_temp_files_heap in Hd'.
      change (deref (update l (Download.set_error "Some chunks failed to download") σ4) l
              = Some d') in Hd'.
      rewrite deref_update in Hd'.
      destruct (deref σ4 l) as [d4|] eqn:Hd4; [|discriminate].
      simpl in Hd'. injection Hd' as <-. simpl. by apply Hjoin.
Qed.

End Counters.

(** X23. For a download that starts with no byte and no chunk, the chunked
    strategy keeps the byte counter equal to the sum of the counters of the
    chunks: this holds when [_download_in_chunks] returns, whatever the
    chunk threads received, in whatever order they ran, and whatever the
    other threads called meanwhile. *)
Theorem chunked_counter_is_sum (cfg : Config) (l : loc) (d : Download.t)
    (proxies : gmap string string) (headers : gmap string value)
    (script : nat -> nat -> CAttempt) (sc : list sched) (σ : State) :
  deref σ l = Some d ->
  Download.downloaded d = 0 ->
  Download.chunks d = [] ->
  counter_is_sum l (_download_in_chunks cfg l proxies headers script sc σ).2.
Proof. apply counter_download_in_chunks. Qed.

Lemma chunked_counter_is_sum_witness :
  counter_is_sum 0%nat
    (_download_in_chunks ChunkScenario.cfg2 0%nat ∅ ∅ ChunkScenario.broken
       ChunkScenario.interleaved ChunkScenario.probed).2.
Proof.
  eapply (chunked_counter_is_sum ChunkScenario.cfg2 0%nat _ ∅ ∅ ChunkScenario.broken
            ChunkScenario.interleaved ChunkScenario.probed);
    [vm_compute; reflexivity | reflexivity | reflexivity].
Defined.

Section PartFiles.

Variable cfg : Config.
Variable l : loc.

Lemma part_files_update l' f σ :
  (forall d, Chunk.temp_file <$> Download.chunks (f d) = Chunk.temp_file <$> Download.chunks d) ->
  part_files_at (update l' f σ) l = part_files_at σ l.
Proof.
  intros Hf. unfold part_files_at, deref, update. simpl.
  destruct (decide (l = l')) as [->|Hne].
  - rewrite lookup_alter_eq. destruct (heap σ !! l'); simpl; [|done]. by rewrite Hf.
  - by rewrite lookup_alter_ne.
Qed.

Lemma temp_files_alter f k (chunks : list Chunk.t) :
  (forall c, Chunk.temp_file (f c) = Chunk.temp_file c) ->
  Chunk.temp_file <$> alter f k chunks = Chunk.temp_file <$> chunks.
Proof.
  intros Hf. revert k. induction chunks as [|c chunks IH]; intros [|k]; simpl; try done.
  - by rewrite Hf.
  - f_equal. apply IH.
Qed.

Lemma part_files_update_chunk l' k f σ :
  (forall c, Chunk.temp_file (f c) = Chunk.temp_file c) ->
  part_files_at (update_chunk l' k f σ) l = part_files_at σ l.
Proof.
  intros Hf. unfold update_chunk. apply part_files_update.
  intros d. simpl. by apply temp_files_alter.
Qed.

Lemma part_files_apply_op op σ : part_files_at (apply_op op σ) l = part_files_at σ l.
Proof. unfold part_files_at. apply obs_apply_op. done. Qed.

Lemma part_files_chunk_step k proxies headers script th σ :
  part_files_at (chunk_step cfg l k proxies headers script th σ).2 l = part_files_at σ l.
Proof.
  unfold chunk_step, chunk_exception.
  repeat case_match; simplify_eq; simpl; try done;
    repeat first
      [ reflexivity
      | rewrite part_files_update_chunk by (intros; reflexivity)
      | rewrite part_files_update by (intros; reflexivity)
      | match goal with
        | |- context [part_files_at (emit ?s ?x) l] =>
            change (part_files_at (emit s x) l) with (part_files_at x l)
        | |- context [part_files_at (send ?r ?x) l] =>
            change (part_files_at (send r x) l) with (part_files_at x l)
        | |- context [part_files_at (create_file ?p ?x) l] =>
            change (part_files_at (create_file p x) l) with (part_files_at x l)
        end ].
Qed.

Lemma part_files_step_thread proxies headers script k ths σ :
  part_files_at (step_thread cfg l proxies headers script k ths σ).2 l = part_files_at σ l.
Proof.
  unfold step_thread. destruct (ths !! k) as [th|]; [|done].
  pose proof (part_files_chunk_step k proxies headers (script k) th σ) as H.
  by destruct (chunk_step _ _ _ _ _ _ _ _).
Qed.

Lemma part_files_run_sched proxies headers script sc ths σ :
  part_files_at (run_sched cfg l proxies headers script sc ths σ).2 l = part_files_at σ l.
Proof.
  revert ths σ. induction sc as [|[k|op] sc IH]; intros ths σ; simpl.
  - done.
  - pose proof (part_files_step_thread proxies headers script k ths σ) as H.
    destruct (step_thread _ _ _ _ _ _ _ _) as [ths1 σ1]. simpl in H.
    by rewrite IH.
  - by rewrite IH, part_files_apply_op.
Qed.

Lemma part_files_finish_thread fuel proxies headers script k ths σ :
  part_files_at (finish_thread cfg fuel l proxies headers script k ths σ).2 l
  = part_files_at σ l.
Proof.
  revert ths σ. induction fuel as [|fuel IH]; intros ths σ; simpl; [done|].
  pose proof (part_files_step_thread proxies headers script k ths σ) as H.
  destruct (step_thread _ _ _ _ _ _ _ _) as [ths1 σ1]. simpl in H. by rewrite IH.
Qed.

Lemma part_files_join_all proxies headers script ths σ :
  part_files_at (join_all cfg l proxies headers script ths σ).2 l = part_files_at σ l.
Proof.
  unfold join_all. generalize (seq 0 (length ths)) as ks.
  intros ks. revert ths σ.
  induction ks as [|k ks IH]; intros ths σ; simpl; [done|].
  pose proof (part_files_finish_thread (thread_bound cfg (script k)) proxies headers script
                k ths σ) as H.
  destruct (finish_thread _ _ _ _ _ _ _ _ _) as [ths1 σ1]. simpl in H. by rewrite IH.
Qed.

End PartFiles.

Lemma remove_temp_files_keeps chunks σ p :
  p ∉ (Chunk.temp_file <$> chunks) -> p ∈ fs σ -> p ∈ fs (remove_temp_files chunks σ).
Proof.
  revert σ. induction chunks as [|c chunks IH]; intros σ Hnot Hin; [done|].
  rewrite remove_temp_files_cons. rewrite fmap_cons in Hnot.
  apply not_elem_of_cons in Hnot as [Hne Hnot]. apply IH; [done|].
  case_match; [|done]. simpl. apply elem_of_difference. split; [done|].
  by intros ->%elem_of_singleton.
Qed.

Lemma target_not_part_file cfg target_path size :
  target_path ∉ (Chunk.temp_file <$> prepare_chunks cfg target_path size).
Proof.
  rewrite prepare_chunks_temp_files. intros (i & Hi & _)%list_elem_of_fmap.
  apply (f_equal String.length) in Hi.
  rewrite string_length_app, string_length_app in Hi. simpl in Hi. lia.
Qed.

(** X24. When [_download_in_chunks] returns [True] for a target that did not
    exist before, the target file exists and the part file of every chunk
    has been removed. *)
Theorem download_in_chunks_success_files (cfg : Config) (l : loc) (d : Download.t)
    (proxies : gmap string string) (headers : gmap string value)
    (script : nat -> nat -> CAttempt) (sc : list sched) (σ : State) :
  deref σ l = Some d ->
  path_exists (Download.get_target_path d) σ = false ->
  (_download_in_chunks cfg l proxies headers script sc σ).1 = RTrue ->
  Download.get_target_path d ∈ fs (_download_in_chunks cfg l proxies headers script sc σ).2 /\
  forall d' c,
    deref (_download_in_chunks cfg l proxies headers script sc σ).2 l = Some d' ->
    c ∈ Download.chunks d' ->
    Chunk.temp_file c ∉ fs (_download_in_chunks cfg l proxies headers script sc σ).2.
Proof.
  intros Hd Habsent. unfold _download_in_chunks.
  rewrite Hd, (resolve_conflict_absent _ _ _ _ Habsent).
  destruct (makedirs _ σ) as [σ2|] eqn:Hmk; [|discriminate].
  destruct (chunk_count cfg =? 0); [discriminate|].
  set (target := Download.get_target_path d).
  set (chunks := prepare_chunks cfg target (Download.size d)).
  assert (Hnames : part_files_at (update l (Download.set_chunks chunks) σ2) l
                   = Some (Chunk.temp_file <$> chunks)).
  { unfold part_files_at. rewrite deref_update.
    unfold makedirs in Hmk. case_match; simplify_eq.
    change (deref (with_fs ?f σ) l) with (deref σ l). by rewrite Hd. }
  match goal with
  | |- context [run_sched cfg l proxies headers script sc ?ths ?s] =>
      pose proof (part_files_run_sched cfg l proxies headers script sc ths s) as Hrun;
      destruct (run_sched cfg l proxies headers script sc ths s) as [ths1 σ3]
  end.
  pose proof (part_files_join_all cfg l proxies headers script ths1 σ3) as Hjoin.
  destruct (join_all _ _ _ _ _ _ _) as [ths2 σ4]. simpl in Hrun, Hjoin.
  rewrite Hrun, Hnames in Hjoin.
  destruct (forallb _ _); [|discriminate]. intros _. simpl.
  unfold part_files_at in Hjoin.
  destruct (deref σ4 l) as [d4|] eqn:Hd4; [|discriminate].
  simpl in Hjoin. injection Hjoin as Hjoin. simpl.
  assert (Hpost : forall s, _post_process_download cfg l target s = s)
    by (intros; unfold _post_process_download; by case_match).
  rewrite Hpost. split.
  - apply remove_temp_files_keeps.
    + rewrite Hjoin. apply target_not_part_file.
    + simpl. by apply elem_of_union_l, elem_of_singleton.
  - intros d' c Hd' Hc. unfold deref in Hd'. rewrite remove_temp_files_heap in Hd'.
    change (deref σ4 l = Some d') in Hd'. rewrite Hd4 in Hd'. injection Hd' as <-.
    by apply remove_temp_files_removes.
Qed.

Lemma download_in_chunks_success_files_witness :
  "/dl/f.bin" ∈ fs (_download_in_chunks ChunkScenario.cfg2 0%nat ∅ ∅ ChunkScenario.complete
                      ChunkScenario.interleaved ChunkScenario.probed).2.
Proof.
  apply (download_in_chunks_success_files ChunkScenario.cfg2 0%nat
           (Download.set_url "http://host/f.bin"
              (Download.set_size 10
                 (Download.set_status Downloading
                    (Download.init "u1" "http://host/f.bin" "/dl" (Some "f.bin") "/f.bin"))))
           ∅ ∅ ChunkScenario.complete ChunkScenario.interleaved ChunkScenario.probed);
    vm_compute; reflexivity.
Defined.

(** ** The state machine, the byte counter and the proxies, once more *)

(** X25. A call of [pause_download], [resume_download], [cancel_download] or
    [delete_download] changes the status of a download, if at all, along an
    edge of the state machine: Downloading to Paused, Paused to Waiting, or
    Downloading, Paused or Waiting to Canceled. *)
Theorem interface_calls_follow_state_machine (op : Op) (σ : State) (l : loc)
    (a b : Status) :
  status_at σ l = Some a ->
  status_at (apply_op op σ) l = Some b ->
  a = b \/ legal_edge a b = true.
Proof. apply control_operations_follow_edges. Qed.

Lemma interface_calls_follow_state_machine_witness :
  Waiting = Canceled \/ legal_edge Waiting Canceled = true.
Proof.
  apply (interface_calls_follow_state_machine (OpCancel "u1") (Scenario.submitted "Normal")
           0%nat Waiting Canceled); reflexivity.
Defined.

(** X26. When the executor reports a failure, the worker changes the status
    of a download only from [Downloading], and then to [Failed]: a download
    that was paused or canceled meanwhile keeps its status. *)
Theorem failure_commit_keeps_paused_and_canceled (i : string) (σ : State) (l : loc)
    (a b : Status) :
  status_at σ l = Some a ->
  status_at (worker_commit i RFalse σ) l = Some b ->
  a = b \/ (a = Downloading /\ b = Failed).
Proof. apply worker_commit_failure_follows_edges. Qed.

Lemma failure_commit_keeps_paused_and_canceled_witness :
  Paused = Paused \/ (Paused = Downloading /\ Paused = Failed).
Proof.
  apply (failure_commit_keeps_paused_and_canceled "u1"
           (pause_download "u1" Scenario.taken).2 0%nat Paused Paused); reflexivity.
Defined.



(** X28. When [_download_in_chunks] returns [False] (a chunk used up its
    retries, or the download was paused or canceled while the chunks were
    read), the part file of every chunk has been removed. *)
Theorem chunked_failure_removes_part_files (cfg : Config) (l : loc)
    (proxies : gmap string string) (headers : gmap string value)
    (script : nat -> nat -> CAttempt) (sc : list sched) (σ : State) :
  (_download_in_chunks cfg l proxies headers script sc σ).1 = RFalse ->
  forall d c,
    deref (_download_in_chunks cfg l proxies headers script sc σ).2 l = Some d ->
    c ∈ Download.chunks d ->
    Chunk.temp_file c ∉ fs (_download_in_chunks cfg l proxies headers script sc σ).2.
Proof.
  intros Hret. apply (download_in_chunks_failure_cleans cfg l proxies headers script sc σ).
  rewrite <- Hret. apply surjective_pairing.
Qed.

Lemma chunked_failure_removes_part_files_witness :
  "/dl/f.bin.part1"
    ∉ fs (_download_in_chunks ChunkScenario.cfg2 0%nat ∅ ∅ ChunkScenario.broken
            ChunkScenario.interleaved ChunkScenario.probed).2.
Proof.
  apply (chunked_failure_removes_part_files ChunkScenario.cfg2 0%nat ∅ ∅
           ChunkScenario.broken ChunkScenario.interleaved ChunkScenario.probed
           ltac:(vm_compute; reflexivity)
           (Download.mk "u1" "http://host/f.bin" "/dl" "f.bin" 10 8 Downloading
              (Some "Some chunks failed to download") "Normal"
              [Chunk.mk 0 4 "/dl/f.bin.part0" 5 CCompleted None;
               Chunk.mk 5 9 "/dl/f.bin.part1" 3 CFailed (Some "connection reset")])
           (Chunk.mk 5 9 "/dl/f.bin.part1" 3 CFailed (Some "connection reset"))).
  - vm_compute. reflexivity.
  - simpl. apply list_elem_of_further, list_elem_of_here.
Defined.

(** X29. Every request of a run of [_download_file] carries one and the same
    proxy map, the one [_get_proxies] gives for the privacy mode of the
    download, and the first of these requests is the HEAD request. *)
Theorem requests_carry_selected_proxies (cfg : Config) (i : string) (env : Env)
    (σ : State) (l : loc) (d : Download.t) :
  downloads σ !! i = Some l ->
  deref σ l = Some d ->
  exists r rs,
    net (_download_file cfg i env σ).2 = (net σ ++ r :: rs)%list /\
    req_method r = "HEAD" /\
    Forall (fun r => req_proxies r = _get_proxies cfg (Download.privacy_mode d)) (r :: rs).
Proof. apply download_file_proxies. Qed.

Lemma requests_carry_selected_proxies_witness :
  exists r rs,
    net (_download_file ChunkScenario.cfg2 "u1" (ChunkScenario.env_of ChunkScenario.complete)
           Scenario.taken).2 = (net Scenario.taken ++ r :: rs)%list /\
    req_method r = "HEAD" /\
    Forall (fun r => req_proxies r = _get_proxies ChunkScenario.cfg2 "Normal") (r :: rs).
Proof.
  apply (requests_carry_selected_proxies ChunkScenario.cfg2 "u1"
           (ChunkScenario.env_of ChunkScenario.complete) Scenario.taken 0%nat
           (Download.set_status Downloading
              (Download.init "u1" "http://host/f.bin" "/dl" (Some "f.bin") "/f.bin")));
    reflexivity.
Defined.

(** ** Loading the settings file *)

Lemma get_section_absent (s : Settings) (section : string) :
  section ∉ s.*1 -> get_section s section = ∅.
Proof.
  induction s as [|[name vals] rest IH]; simpl; [done|].
  intros [Hne Hrest]%not_elem_of_cons. unfold Str.eqb.
  rewrite bool_decide_eq_false_2 by congruence. by apply IH.
Qed.

(** X30. [load_settings] merges the sections of the settings file into the
    current ones key by key: in every section a key of the file overwrites
    the current value, a key the file does not mention keeps its value, and
    a section only the file has is added. *)
Theorem load_settings_merges (loaded : Settings) (m : SettingsManager.t) (section : string) :
  NoDup loaded.*1 ->
  get_section (SettingsManager.settings (SettingsManager.load_settings loaded m)) section
  = get_section loaded section ∪ get_section (SettingsManager.settings m) section.
Proof.
  unfold SettingsManager.load_settings. simpl.
  generalize (SettingsManager.settings m) as s. clear m.
  induction loaded as [|[name vals] rest IH]; intros s Hnd; simpl.
  - by rewrite (left_id_L ∅ (∪)).
  - apply NoDup_cons in Hnd as [Hnot Hnd]. rewrite IH by done.
    destruct (update_section_spec s name vals) as [Hsec Hoth].
    unfold Str.eqb. case_bool_decide as Hname.
    + subst section. by rewrite Hsec, (get_section_absent rest name Hnot), (left_id_L ∅ (∪)).
    + by rewrite Hoth by congruence.
Qed.

Lemma load_settings_merges_witness :
  get_section
    (SettingsManager.settings
       (SettingsManager.load_settings
          [("connection", {[ "retry_count" := VInt 9 ]})]
          (SettingsManager.mk
             [("connection", {[ "retry_count" := VInt 3; "retry_delay" := VInt 5 ]})]
             [] false)))
    "connection"
  = get_section [("connection", {[ "retry_count" := VInt 9 ]})] "connection"
    ∪ get_section [("connection", {[ "retry_count" := VInt 3; "retry_delay" := VInt 5 ]})]
                  "connection".
Proof.
  apply (load_settings_merges
           [("connection", {[ "retry_count" := VInt 9 ]})]
           (SettingsManager.mk
              [("connection", {[ "retry_count" := VInt 3; "retry_delay" := VInt 5 ]})]
              [] false) "connection").
  apply NoDup_singleton.
Defined.
